(** * An elastic worker pool: the dispatcher of [pool.go]

    A shallow embedding of [Pool] and its methods.  Go pointers to
    [worker] are addresses into a heap of worker records, so that a
    worker selected from a registry and the worker later mutated by
    [sendJob] are the same object.  Every method is a computation in a
    state monad over the process state that may return, panic, or run
    out of fuel.

    The methods are described twice: first run from call to return,
    which is what one call does when no other goroutine interferes;
    then cut into the atomic actions a goroutine performs, so that the
    calls of several callers and the workers interleave.  The states
    of a pool in use are those of the interleaved runs. *)

From Stdlib Require Import ZArith String Lia.
From stdpp Require Import base list relations.

Open Scope Z_scope.

(** ** Data *)

(** [type WorkType int32], with the two package variables. *)
Definition WorkType := Z.
Definition ETERNAL : WorkType := 1.
Definition TEMPORARY : WorkType := 2.

(** Modelled from the spec: [TaskConf] is declared outside [pool.go].
    The three options the pool reads: worker count, per-worker capacity
    and the expiry of temporary workers (seconds). *)
Record TaskConf := mkTaskConf {
  WorkerNum : Z;
  WorkerContent : Z;
  ExpTime : Z
}.

(** Modelled from the spec: [TaskContext] is declared outside [pool.go];
    a job is an opaque unit of work, only a tag is kept. *)
Record TaskContext := mkTaskContext { jobTag : Z }.

(** Modelled from the spec: the [worker] struct is declared outside
    [pool.go].  [pool.go] reads the fields [ID], [jobNum] (int64) and
    [Blocking] (uint32); the capacity and the kind are the arguments
    [newWorker] receives.  [queue] is the bounded intake queue the
    spec gives a worker: the jobs it has taken in and not completed
    yet, oldest first (the capacity bounds the jobs in flight and
    queued). *)
Record worker := mkWorker {
  ID : Z;
  jobNum : Z;
  Blocking : Z;
  capacity : Z;
  kind : WorkType;
  queue : list TaskContext
}.

(** A [*worker]: an address in the heap. *)
Definition ptr := nat.

(** [type Pool struct].  A nil slice is [None]; [wg], [randSource] and
    [lockTemporary] are pointers to objects of the runtime below; the
    cancellation context is the flag [cancelled]. *)
Record Pool := mkPool {
  eternalWorker : list ptr;
  cancelled : bool;
  conf : TaskConf;
  isClose : Z;
  temporaryWorker : option (list ptr)
}.

(** A source of draws: an arbitrary sequence and a cursor. *)
Record rng := mkRng { draws : nat -> Z; pos : nat }.

(** What the methods share with the rest of the process: the heap of
    workers, the wall clock in seconds, the wait group counter, the
    pool's random source, the package-level source of [math/rand], and
    the identity generator [GetUUID]. *)
Record Runtime := mkRuntime {
  heap : list worker;
  clock : Z;
  wg : Z;
  randSource : rng;
  globalRand : rng;
  uuid : rng
}.

Record World := mkWorld { pool : Pool; rt : Runtime }.

(** ** Field updates *)

Definition set_jobNum (n : Z) (w : worker) : worker :=
  mkWorker (ID w) n (Blocking w) (capacity w) (kind w) (queue w).
Definition set_Blocking (b : Z) (w : worker) : worker :=
  mkWorker (ID w) (jobNum w) b (capacity w) (kind w) (queue w).
Definition set_queue (q : list TaskContext) (w : worker) : worker :=
  mkWorker (ID w) (jobNum w) (Blocking w) (capacity w) (kind w) q.

Definition set_eternalWorker (l : list ptr) (p : Pool) : Pool :=
  mkPool l (cancelled p) (conf p) (isClose p) (temporaryWorker p).
Definition set_cancelled (b : bool) (p : Pool) : Pool :=
  mkPool (eternalWorker p) b (conf p) (isClose p) (temporaryWorker p).
Definition set_isClose (n : Z) (p : Pool) : Pool :=
  mkPool (eternalWorker p) (cancelled p) (conf p) n (temporaryWorker p).
Definition set_temporaryWorker (l : option (list ptr)) (p : Pool) : Pool :=
  mkPool (eternalWorker p) (cancelled p) (conf p) (isClose p) l.

Definition set_heap (h : list worker) (r : Runtime) : Runtime :=
  mkRuntime h (clock r) (wg r) (randSource r) (globalRand r) (uuid r).
Definition set_clock (t : Z) (r : Runtime) : Runtime :=
  mkRuntime (heap r) t (wg r) (randSource r) (globalRand r) (uuid r).
Definition set_wg (n : Z) (r : Runtime) : Runtime :=
  mkRuntime (heap r) (clock r) n (randSource r) (globalRand r) (uuid r).
Definition set_randSource (g : rng) (r : Runtime) : Runtime :=
  mkRuntime (heap r) (clock r) (wg r) g (globalRand r) (uuid r).
Definition set_globalRand (g : rng) (r : Runtime) : Runtime :=
  mkRuntime (heap r) (clock r) (wg r) (randSource r) g (uuid r).
Definition set_uuid (g : rng) (r : Runtime) : Runtime :=
  mkRuntime (heap r) (clock r) (wg r) (randSource r) (globalRand r) g.

Definition upd_pool (f : Pool -> Pool) (s : World) : World :=
  mkWorld (f (pool s)) (rt s).
Definition upd_rt (f : Runtime -> Runtime) (s : World) : World :=
  mkWorld (pool s) (f (rt s)).

(** ** The monad of methods *)

Inductive outcome (A : Type) : Type :=
| Ret (a : A)
| Panic (msg : string)
| Diverge.
Arguments Ret {A} a.
Arguments Panic {A} msg.
Arguments Diverge {A}.

Definition M (A : Type) : Type := World -> outcome (A * World).

Definition ret {A} (a : A) : M A := fun s => Ret (a, s).
Definition bind {A B} (m : M A) (k : A -> M B) : M B :=
  fun s => match m s with
           | Ret (a, s') => k a s'
           | Panic msg => Panic msg
           | Diverge => Diverge
           end.
Definition panic {A} (msg : string) : M A := fun _ => Panic msg.
Definition diverge {A} : M A := fun _ => Diverge.
Definition get : M World := fun s => Ret (s, s).
Definition modify (f : World -> World) : M unit := fun s => Ret (tt, f s).

Declare Scope go_scope.
Delimit Scope go_scope with go.
Notation "'do' x <- m ; k" := (bind m (fun x => k))
  (at level 10, x pattern, m at level 100, k at level 200) : go_scope.
Open Scope go_scope.

(** ** Runtime primitives *)

(** Two's complement wrap-around of [int32] arithmetic. *)
Definition wrap32 (z : Z) : Z := (z + 2 ^ 31) mod 2 ^ 32 - 2 ^ 31.

(** [Rand.Intn] of the pool's source and [rand.Intn]: panic unless [0 < n], else a
    draw reduced to the range [0, n). *)
Definition next (g : rng) (n : Z) : Z * rng :=
  (draws g (pos g) mod n, mkRng (draws g) (S (pos g))).

Definition randSource_Intn (n : Z) : M Z := fun s =>
  if n <=? 0 then Panic "invalid argument to Intn"
  else let '(v, g) := next (randSource (rt s)) n in
       Ret (v, upd_rt (set_randSource g) s).

Definition rand_Intn (n : Z) : M Z := fun s =>
  if n <=? 0 then Panic "invalid argument to Intn"
  else let '(v, g) := next (globalRand (rt s)) n in
       Ret (v, upd_rt (set_globalRand g) s).

(** [GetUUID]: the next identity of the external generator. *)
Definition GetUUID : M Z := fun s =>
  let g := uuid (rt s) in
  Ret (draws g (pos g), upd_rt (set_uuid (mkRng (draws g) (S (pos g)))) s).

(** [workers[i]] with Go's bounds check. *)
Definition index (workers : list ptr) (i : Z) : M ptr := fun s =>
  if (0 <=? i) && (i <? Z.of_nat (length workers)) then
    match workers !! Z.to_nat i with
    | Some a => Ret (a, s)
    | None => Panic "index out of range"
    end
  else Panic "index out of range".

(** Reading through a [*worker]. *)
Definition deref (a : ptr) : M worker := fun s =>
  match heap (rt s) !! a with
  | Some w => Ret (w, s)
  | None => Panic "invalid memory address or nil pointer dereference"
  end.

Definition store (a : ptr) (w : worker) : M unit :=
  modify (upd_rt (fun r => set_heap (<[a := w]> (heap r)) r)).

(** [atomic.LoadInt64(&w.jobNum)]. *)
Definition LoadInt64_jobNum (a : ptr) : M Z :=
  do w <- deref a; ret (jobNum w).

(** [atomic.CompareAndSwapInt64(&w.jobNum, old, new)]. *)
Definition CompareAndSwapInt64_jobNum (a : ptr) (old new : Z) : M bool :=
  do w <- deref a;
  if jobNum w =? old then do _ <- store a (set_jobNum new w); ret true
  else ret false.

(** [<-ticker.C] of a ticker of [duration] seconds. *)
Definition tick (duration : Z) : M unit :=
  modify (upd_rt (fun r => set_clock (clock r + duration) r)).

(** [p.wg.Add(delta)]. *)
Definition wg_Add (delta : Z) : M unit :=
  modify (upd_rt (fun r => set_wg (wg r + delta) r)).

(** [atomic.AddInt32(&p.isClose, delta)]. *)
Definition AddInt32_isClose (delta : Z) : M unit :=
  modify (upd_pool (fun p => set_isClose (wrap32 (isClose p + delta)) p)).

(** ** The worker, as far as the pool relies on it *)

(** Modelled from the spec: [newWorker] is defined outside [pool.go].
    A worker starts with identity, capacity and kind as given, no job
    and the backpressure flag clear; it is a fresh object of the heap. *)
Definition newWorker (id cap : Z) (k : WorkType) : M ptr := fun s =>
  Ret (length (heap (rt s)),
       upd_rt (fun r => set_heap (heap r ++ [mkWorker id 0 0 cap k []]) r) s).

(** Modelled from the spec: [worker.IsBlocking] is defined outside
    [pool.go]; it returns the current backpressure flag. *)
Definition IsBlocking (a : ptr) : M bool :=
  do w <- deref a; ret (Blocking w =? 1).

(** Modelled from the spec: [worker.sendJob] is defined outside
    [pool.go].  A non-blocking attempt to enqueue: success increments
    [jobNum] and returns true; if the queue is already at capacity it
    sets the backpressure flag and returns false.  The test is on the
    queue, not on the counter. *)
Definition sendJob (a : ptr) (job : TaskContext) : M bool :=
  do w <- deref a;
  if Z.of_nat (length (queue w)) <? capacity w then
    do _ <- store a (set_queue (queue w ++ [job])
                       (set_jobNum (jobNum w + 1) w));
    ret true
  else
    do _ <- store a (set_Blocking 1 w); ret false.

(** Modelled from the spec: the worker's run loop is defined outside
    [pool.go].  On a queued job: it executes it, then decrements
    [jobNum] and clears the backpressure flag if the load has dropped
    below capacity.  With an empty queue the loop waits. *)
Definition finishJob (a : ptr) (s : World) : option World :=
  match heap (rt s) !! a with
  | Some w =>
      match queue w with
      | [] => None
      | _ :: q =>
          let w1 := set_queue q (set_jobNum (jobNum w - 1) w) in
          let w2 := if jobNum w1 <? capacity w1 then set_Blocking 0 w1 else w1 in
          Some (upd_rt (fun r => set_heap (<[a := w2]> (heap r)) r) s)
      end
  | None => None
  end.

(** ** Construction *)

(** The loop of [startPool]: [n] iterations remain, [i] is the loop
    variable.  The goroutine started for each worker runs in the
    environment: see the events [Finish] and [Exit] below. *)
Fixpoint startPool_loop (n : nat) (i : Z) : M unit :=
  match n with
  | O => ret tt
  | S n' =>
      let wid := i + 1 in
      do s <- get;
      do w <- newWorker wid (WorkerContent (conf (pool s))) ETERNAL;
      do _ <- wg_Add 1;
      do _ <- modify (upd_pool (fun p =>
                set_eternalWorker (eternalWorker p ++ [w]) p));
      startPool_loop n' (i + 1)
  end.

Definition startPool : M unit :=
  do s <- get;
  do _ <- startPool_loop (Z.to_nat (WorkerNum (conf (pool s)))) 0;
  AddInt32_isClose 1.

(** [NewPool].  [defaultConf] is a package variable declared outside
    [pool.go]; a nil [conf] is [None].  The pool is built in the given
    runtime. *)
Definition NewPool (defaultConf : TaskConf) (conf : option TaskConf)
    (r : Runtime) : outcome World :=
  let conf := match conf with None => defaultConf | Some c => c end in
  if WorkerNum conf <? 2 then Panic "NewPool: Worker Num at least 2"
  else
    let p := mkPool [] false conf 1 None in
    match startPool (mkWorld p r) with
    | Ret (_, s) => Ret s
    | Panic msg => Panic msg
    | Diverge => Diverge
    end.

(** ** Lifecycle *)

Definition isClosed : M bool :=
  do s <- get; ret (isClose (pool s) =? 1).

(** [p.cancel()]. *)
Definition cancel : M unit := modify (upd_pool (set_cancelled true)).

Definition Close : M unit :=
  do closed <- isClosed;
  if closed then ret tt
  else do _ <- AddInt32_isClose (-1); cancel.

(** ** Power of two choices *)

(** The loop [for num1 == num2] of [getTwoNums]; it has no bound of its
    own, so it runs on [fuel]. *)
Fixpoint resample (fuel : nat) (num num1 num2 : Z) : M (Z * Z) :=
  if num1 =? num2 then
    match fuel with
    | O => diverge
    | S fuel' => do num2' <- rand_Intn num; resample fuel' num num1 num2'
    end
  else ret (num1, num2).

(** [getTwoNums].  Seeding the pool's source with the current time only
    chooses which draws follow; the draws here are arbitrary already. *)
Definition getTwoNums (fuel : nat) (num : Z) : M (Z * Z) :=
  do num1 <- randSource_Intn num;
  do num2 <- randSource_Intn num;
  resample fuel num num1 num2.

Definition getTwoWorker (fuel : nat) (num : Z) (workers : list ptr)
    : M (ptr * ptr) :=
  do (num1, num2) <- getTwoNums fuel num;
  do w1 <- index workers num1;
  do w2 <- index workers num2;
  ret (w1, w2).

(** [atomic.CompareAndSwapInt64(&w.jobNum, p.conf.WorkerContent, w.jobNum)]:
    the third argument is read from the worker before the call. *)
Definition atCapacity (a : ptr) : M bool :=
  do s <- get;
  do w <- deref a;
  CompareAndSwapInt64_jobNum a (WorkerContent (conf (pool s))) (jobNum w).

(** The comparison both selectors end with. *)
Definition pickLessLoaded (w1 w2 : ptr) : M (option ptr) :=
  do full1 <- atCapacity w1;
  do full <- (if full1 then atCapacity w2 else ret false);
  if full then ret None
  else
    do n1 <- LoadInt64_jobNum w1;
    do n2 <- LoadInt64_jobNum w2;
    if n1 <? n2 then ret (Some w1) else ret (Some w2).

Definition getWorkFormEnternal (fuel : nat) : M (option ptr) :=
  do s <- get;
  do (w1, w2) <- getTwoWorker fuel (WorkerNum (conf (pool s)))
                    (eternalWorker (pool s));
  pickLessLoaded w1 w2.

Definition getWorkerFromTemp (fuel : nat) : M (option ptr) :=
  do s <- get;
  match temporaryWorker (pool s) with
  | None =>
      do _ <- modify (upd_pool (set_temporaryWorker (Some [])));
      ret None
  | Some ws =>
      if Z.of_nat (length ws) =? 0 then ret None
      else if Z.of_nat (length ws) =? 1 then
        do w <- index ws 0;
        do full <- atCapacity w;
        do busy <- (if full then ret true else IsBlocking w);
        if busy then ret None else ret (Some w)
      else
        do (w1, w2) <- getTwoWorker fuel (Z.of_nat (length ws)) ws;
        pickLessLoaded w1 w2
  end.

(** ** Retrying *)

(** The loop of [getWorkStep]: [k] iterations remain ([n] counts up to
    [num] and nothing else changes it).  Each iteration waits for the
    ticker, calls [f] and keeps its result; both [continue] branches
    and the fall-through lead to the next iteration. *)
Fixpoint getWorkStep_loop (k : nat) (duration : Z) (f : M (option ptr))
    (w : option ptr) : M (option ptr) :=
  match k with
  | O => ret w
  | S k' =>
      do _ <- tick duration;
      do w' <- f;
      do _ <- match w' with
              | None => ret tt
              | Some a => do _ <- IsBlocking a; ret tt
              end;
      getWorkStep_loop k' duration f w'
  end.

Definition getWorkStep (num : Z) (duration : Z) (f : M (option ptr))
    : M (option ptr) :=
  if duration <=? 0 then panic "non-positive interval for NewTicker"
  else getWorkStep_loop (Z.to_nat num) duration f None.

(** ** The temporary registry *)

(** [append(p.temporaryWorker, w)]: a nil slice appends like an empty
    one. *)
Definition slice_of (l : option (list ptr)) : list ptr :=
  match l with None => [] | Some ws => ws end.

(** [newTempWorker].  The worker's context expires after [ExpTime]
    seconds or with the pool's; its exit is a step of the environment
    (the event [Exit] below), which calls [removeFromParent]. *)
Definition newTempWorker : M ptr :=
  do s <- get;
  do id <- GetUUID;
  do w <- newWorker id (WorkerContent (conf (pool s))) TEMPORARY;
  do _ <- wg_Add 1;
  do _ <- modify (upd_pool (fun p =>
            set_temporaryWorker (Some (slice_of (temporaryWorker p) ++ [w])) p));
  ret w.

(** The loop [for l < r] of [removeFromParent], on [fuel].  [int]
    arithmetic on slice indices cannot overflow; Go's [/] truncates
    towards zero, which is [Z.quot]. *)
Fixpoint removeFromParent_loop (fuel : nat) (id l r : Z) : M unit :=
  if l <? r then
    match fuel with
    | O => diverge
    | S fuel' =>
        let mid := l + Z.quot (l - r) 2 in
        do s <- get;
        let ws := slice_of (temporaryWorker (pool s)) in
        do a <- index ws mid;
        do w <- deref a;
        if ID w =? id then
          modify (upd_pool (set_temporaryWorker
            (Some (take (Z.to_nat mid) ws ++ drop (Z.to_nat (mid + 1)) ws))))
        else if ID w >? id then removeFromParent_loop fuel' id l (mid - 1)
        else if ID w <? id then removeFromParent_loop fuel' id (mid + 1) r
        else removeFromParent_loop fuel' id l r
    end
  else ret tt.

Definition removeFromParent (fuel : nat) (id : Z) : M unit :=
  do s <- get;
  match temporaryWorker (pool s) with
  | None => ret tt
  | Some ws =>
      if Z.of_nat (length ws) =? 0 then ret tt
      else
        let lenTemp := Z.of_nat (length ws) in
        let search := removeFromParent_loop fuel id 0 (lenTemp - 1) in
        if lenTemp =? 1 then
          do a <- index ws 0;
          do w <- deref a;
          if negb (ID w =? id) then ret tt
          else
            do _ <- modify (upd_pool (set_temporaryWorker (Some (take 0 ws))));
            search
        else search
  end.

(** ** Admission *)

(** [w == nil || w.IsBlocking()]. *)
Definition inadmissible (w : option ptr) : M bool :=
  match w with
  | None => ret true
  | Some a => IsBlocking a
  end.

(** [DoJob].  [fuel] bounds each resampling loop it reaches.  The line
    it prints reads three fields of the chosen worker. *)
Definition DoJob (fuel : nat) (job : TaskContext) : M bool :=
  do closed <- isClosed;
  if closed then ret false
  else
    do w <- getWorkFormEnternal fuel;
    do again <- inadmissible w;
    do w <- (if again then getWorkStep 3 1 (getWorkFormEnternal fuel)
             else ret w);
    do again <- inadmissible w;
    do w <- (if again then getWorkStep 3 1 (getWorkerFromTemp fuel)
             else ret w);
    do again <- inadmissible w;
    do w <- (if again then do a <- newTempWorker; ret (Some a) else ret w);
    match w with
    | None => panic "invalid memory address or nil pointer dereference"
    | Some a => do _ <- deref a; sendJob a job
    end.

(** ** Methods as sequences of atomic actions *)

(** The definitions above run a method from its call to its return.
    Callers and workers are goroutines, and [pool.go] holds
    [lockTemporary] only around parts of three methods; so between two
    accesses of one call another goroutine may run.  A [prog] is a
    method cut into the accesses to shared state that happen in one
    go: an atomic operation of [sync/atomic], one read or one write of
    a field, one call of a locked source, one call into the worker.
    [Lock] and [Unlock] are those of [lockTemporary]. *)
Inductive prog (A : Type) : Type :=
| Done (a : A)
| Act {X : Type} (m : M X) (k : X -> prog A)
| Lock (k : prog A)
| Unlock (k : prog A).
Arguments Done {A} a.
Arguments Act {A X} m k.
Arguments Lock {A} k.
Arguments Unlock {A} k.

Fixpoint pbind {A B} (p : prog A) (f : A -> prog B) : prog B :=
  match p with
  | Done a => f a
  | Act m k => Act m (fun x => pbind (k x) f)
  | Lock k => Lock (pbind k f)
  | Unlock k => Unlock (pbind k f)
  end.

Notation "'atom' x <- m ; k" := (Act m (fun x => k))
  (at level 10, x pattern, m at level 100, k at level 200) : go_scope.
Notation "'call' x <- p ; k" := (pbind p (fun x => k))
  (at level 10, x pattern, p at level 100, k at level 200) : go_scope.


(** Reading fields of the pool. *)
Definition read {X} (f : World -> X) : M X := fun s => Ret (f s, s).

Definition temporary : World -> list ptr :=
  fun s => slice_of (temporaryWorker (pool s)).

(** [p.temporaryWorker[i]], dereferenced. *)
Definition temporary_at (i : Z) : M worker :=
  do s <- get; do a <- index (temporary s) i; deref a.

Module Fine.

Definition isClosed : prog bool := atom b <- isClosed; Done b.

(** [Close]: the load, then the add, then the cancellation; nothing
    makes the three one. *)
Definition Close : prog unit :=
  call closed <- isClosed;
  if closed then Done tt
  else
    atom _ <- AddInt32_isClose (-1);
    atom _ <- cancel;
    Done tt.

Fixpoint resample (fuel : nat) (num num1 num2 : Z) : prog (Z * Z) :=
  if num1 =? num2 then
    match fuel with
    | O => atom x <- diverge; Done x
    | S fuel' => atom num2' <- rand_Intn num; resample fuel' num num1 num2'
    end
  else Done (num1, num2).

Definition getTwoNums (fuel : nat) (num : Z) : prog (Z * Z) :=
  atom num1 <- randSource_Intn num;
  atom num2 <- randSource_Intn num;
  resample fuel num num1 num2.

Definition getTwoWorker (fuel : nat) (num : Z) (workers : list ptr)
    : prog (ptr * ptr) :=
  call (num1, num2) <- getTwoNums fuel num;
  atom w1 <- index workers num1;
  atom w2 <- index workers num2;
  Done (w1, w2).

(** [atomic.CompareAndSwapInt64(&w.jobNum, p.conf.WorkerContent, w.jobNum)]:
    the arguments are evaluated first, so [w.jobNum] is read, not
    atomically, before the swap is attempted. *)
Definition atCapacity (a : ptr) : prog bool :=
  atom old <- read (fun s => WorkerContent (conf (pool s)));
  atom new <- LoadInt64_jobNum a;
  atom b <- CompareAndSwapInt64_jobNum a old new;
  Done b.

Definition pickLessLoaded (w1 w2 : ptr) : prog (option ptr) :=
  call full1 <- atCapacity w1;
  call full <- (if full1 then atCapacity w2 else Done false);
  if full then Done None
  else
    atom n1 <- LoadInt64_jobNum w1;
    atom n2 <- LoadInt64_jobNum w2;
    if n1 <? n2 then Done (Some w1) else Done (Some w2).

Definition getWorkFormEnternal (fuel : nat) : prog (option ptr) :=
  atom num <- read (fun s => WorkerNum (conf (pool s)));
  atom workers <- read (fun s => eternalWorker (pool s));
  call (w1, w2) <- getTwoWorker fuel num workers;
  pickLessLoaded w1 w2.

(** [getWorkerFromTemp]: the tests for nil and for length 0, and the
    write of the empty slice, come before the lock is taken; the
    registry is read again under the lock. *)
Definition getWorkerFromTemp (fuel : nat) : prog (option ptr) :=
  atom t <- read (fun s => temporaryWorker (pool s));
  match t with
  | None =>
      atom _ <- modify (upd_pool (set_temporaryWorker (Some [])));
      Done None
  | Some _ =>
      atom len <- read (fun s => Z.of_nat (length (temporary s)));
      if len =? 0 then Done None
      else
        Lock (
          atom len <- read (fun s => Z.of_nat (length (temporary s)));
          if len =? 1 then
            atom ws <- read temporary;
            atom w <- index ws 0;
            call full <- atCapacity w;
            call busy <- (if full then Done true
                          else atom b <- IsBlocking w; Done b);
            Unlock (if busy then Done None else Done (Some w))
          else
            atom len <- read (fun s => Z.of_nat (length (temporary s)));
            atom ws <- read temporary;
            call (w1, w2) <- getTwoWorker fuel len ws;
            call r <- pickLessLoaded w1 w2;
            Unlock (Done r))
  end.

Fixpoint getWorkStep_loop (k : nat) (duration : Z) (f : prog (option ptr))
    (w : option ptr) : prog (option ptr) :=
  match k with
  | O => Done w
  | S k' =>
      atom _ <- tick duration;
      call w' <- f;
      call _ <- match w' with
                | None => Done tt
                | Some a => atom _ <- IsBlocking a; Done tt
                end;
      getWorkStep_loop k' duration f w'
  end.

Definition getWorkStep (num : Z) (duration : Z) (f : prog (option ptr))
    : prog (option ptr) :=
  if duration <=? 0 then
    atom x <- panic "non-positive interval for NewTicker"; Done x
  else getWorkStep_loop (Z.to_nat num) duration f None.

(** [newTempWorker]: the worker is created and counted before the
    lock is taken; the append is under the lock. *)
Definition newTempWorker : prog ptr :=
  atom id <- GetUUID;
  atom cap <- read (fun s => WorkerContent (conf (pool s)));
  atom w <- newWorker id cap TEMPORARY;
  atom _ <- wg_Add 1;
  Lock (
    atom _ <- modify (upd_pool (fun p =>
                set_temporaryWorker (Some (slice_of (temporaryWorker p) ++ [w])) p));
    Unlock (Done w)).

(** The loop of [removeFromParent], inside the critical section; the
    entry at [mid] is read for each of the three comparisons. *)
Fixpoint removeFromParent_loop (fuel : nat) (id l r : Z) : prog unit :=
  if l <? r then
    match fuel with
    | O => atom x <- diverge; Done x
    | S fuel' =>
        let mid := l + Z.quot (l - r) 2 in
        atom w <- temporary_at mid;
        if ID w =? id then
          atom _ <- modify (fun s => upd_pool (set_temporaryWorker
                      (Some (take (Z.to_nat mid) (temporary s)
                             ++ drop (Z.to_nat (mid + 1)) (temporary s)))) s);
          Done tt
        else
          atom w <- temporary_at mid;
          if ID w >? id then removeFromParent_loop fuel' id l (mid - 1)
          else
            atom w <- temporary_at mid;
            if ID w <? id then removeFromParent_loop fuel' id (mid + 1) r
            else removeFromParent_loop fuel' id l r
    end
  else Done tt.

(** [removeFromParent]: the tests for nil and for length 0 come before
    the lock is taken. *)
Definition removeFromParent (fuel : nat) (id : Z) : prog unit :=
  atom t <- read (fun s => temporaryWorker (pool s));
  match t with
  | None => Done tt
  | Some _ =>
      atom len <- read (fun s => Z.of_nat (length (temporary s)));
      if len =? 0 then Done tt
      else
        Lock (
          atom lenTemp <- read (fun s => Z.of_nat (length (temporary s)));
          let search :=
            call _ <- removeFromParent_loop fuel id 0 (lenTemp - 1);
            Unlock (Done tt) in
          if lenTemp =? 1 then
            atom w <- temporary_at 0;
            if negb (ID w =? id) then Unlock (Done tt)
            else
              atom _ <- modify (fun s => upd_pool (set_temporaryWorker
                          (Some (take 0 (temporary s)))) s);
              search
          else search)
  end.

Definition inadmissible (w : option ptr) : prog bool :=
  match w with
  | None => Done true
  | Some a => atom b <- IsBlocking a; Done b
  end.

(** [DoJob]: selecting a worker and sending it the job are separate
    actions. *)
Definition DoJob (fuel : nat) (job : TaskContext) : prog bool :=
  call closed <- isClosed;
  if closed then Done false
  else
    call w <- getWorkFormEnternal fuel;
    call again <- inadmissible w;
    call w <- (if again then getWorkStep 3 1 (getWorkFormEnternal fuel)
               else Done w);
    call again <- inadmissible w;
    call w <- (if again then getWorkStep 3 1 (getWorkerFromTemp fuel)
               else Done w);
    call again <- inadmissible w;
    call w <- (if again then call a <- newTempWorker; Done (Some a)
               else Done w);
    match w with
    | None =>
        atom x <- panic "invalid memory address or nil pointer dereference";
        Done x
    | Some a =>
        atom _ <- deref a;
        atom b <- sendJob a job;
        Done b
    end.

End Fine.

(** ** Runs of the pool *)

(** A pool in use: the shared state, whether [lockTemporary] is held,
    and the calls in progress, each with what it has left to do. *)
Record Config := mkConfig {
  world : World;
  locked : bool;
  threads : list (prog unit)
}.

(** A call whose result is dropped. *)
Definition thread {A} (p : prog A) : prog unit := call _ <- p; Done tt.

Definition spawn (p : prog unit) (c : Config) : Config :=
  mkConfig (world c) (locked c) (threads c ++ [p]).

(** The call at position [i] performs its next action.  [Diverge]
    says that it does not move: it has returned, waits for the lock,
    or its action never returns; [Panic] that its action panics. *)
Definition fire (i : nat) (c : Config) : outcome Config :=
  match threads c !! i with
  | Some (Act m k) =>
      match m (world c) with
      | Ret (x, s') => Ret (mkConfig s' (locked c) (<[i := k x]> (threads c)))
      | Panic msg => Panic msg
      | Diverge => Diverge
      end
  | Some (Lock k) =>
      if locked c then Diverge
      else Ret (mkConfig (world c) true (<[i := k]> (threads c)))
  | Some (Unlock k) => Ret (mkConfig (world c) false (<[i := k]> (threads c)))
  | Some (Done _) => Diverge
  | None => Diverge
  end.

(** What can happen next: a call in progress performs one action; a
    caller starts a [DoJob] or a [Close]; a worker completes a queued
    job; the context of a temporary worker fires and the worker starts
    the [removeFromParent] it was given.  Nothing orders these events:
    any worker of kind [TEMPORARY] may leave at any time, and a call
    whose action panics merely stops, which only adds runs.  The clock
    adds up the seconds all calls have waited. *)
Inductive event :=
| Fire (i : nat)
| CallDoJob (fuel : nat) (job : TaskContext)
| CallClose
| Finish (a : ptr)
| Exit (fuel : nat) (a : ptr).

Definition occur (e : event) (c : Config) : option Config :=
  match e with
  | Fire i =>
      match fire i c with
      | Ret c' => Some c'
      | _ => None
      end
  | CallDoJob fuel job => Some (spawn (thread (Fine.DoJob fuel job)) c)
  | CallClose => Some (spawn (thread Fine.Close) c)
  | Finish a =>
      match finishJob a (world c) with
      | Some s' => Some (mkConfig s' (locked c) (threads c))
      | None => None
      end
  | Exit fuel a =>
      match heap (rt (world c)) !! a with
      | Some w =>
          if kind w =? TEMPORARY
          then Some (spawn (Fine.removeFromParent fuel (ID w)) c)
          else None
      | None => None
      end
  end.

Definition step (c c' : Config) : Prop := exists e, occur e c = Some c'.

(** A schedule, played from [c]. *)
Fixpoint play (es : list event) (c : Config) : option Config :=
  match es with
  | [] => Some c
  | e :: es' =>
      match occur e c with
      | Some c' => play es' c'
      | None => None
      end
  end.

(** The configurations of a pool that [NewPool] built in the runtime
    [r] from the argument [c], and the states they go through. *)
Inductive running (defaultConf : TaskConf) (c : option TaskConf)
    (r : Runtime) : Config -> Prop :=
| run_new s :
    NewPool defaultConf c r = Ret s ->
    running defaultConf c r (mkConfig s false [])
| run_step cfg cfg' :
    running defaultConf c r cfg -> step cfg cfg' ->
    running defaultConf c r cfg'.

Definition reachable (defaultConf : TaskConf) (c : option TaskConf)
    (r : Runtime) (s : World) : Prop :=
  exists cfg, running defaultConf c r cfg /\ world cfg = s.

(** ** Sample runtimes *)

Definition rng_of (f : nat -> Z) : rng := mkRng f 0.
Definition counting : rng := rng_of Z.of_nat.
Definition constant (z : Z) : rng := rng_of (fun _ => z).
Definition runtime0 : Runtime := mkRuntime [] 0 0 counting counting counting.
Definition conf22 : TaskConf := mkTaskConf 2 2 5.

Definition pool22 : World :=
  mkWorld (mkPool [0%nat; 1%nat] false conf22 2 None)
          (mkRuntime [mkWorker 1 0 0 2 ETERNAL []; mkWorker 2 0 0 2 ETERNAL []]
                     0 2 counting counting counting).

(** [pool22] after [Close]. *)
Definition closed22 : World :=
  mkWorld (mkPool [0%nat; 1%nat] true conf22 1 None) (rt pool22).

(** [pool22] after one [DoJob]: two draws were taken and the second
    worker holds the job. *)
Definition busy22 : World :=
  mkWorld (pool pool22)
          (mkRuntime [mkWorker 1 0 0 2 ETERNAL [];
                      mkWorker 2 1 0 2 ETERNAL [mkTaskContext 0]]
                     0 2 (mkRng Z.of_nat 2) counting counting).

(** A selector for the retry loop: worker 0 while the clock is below
    3, nil from then on. *)
Definition flaky : M (option ptr) := fun s =>
  match heap (rt s) !! 0%nat with
  | Some _ => if clock (rt s) <? 3 then Ret (Some 0%nat, s) else Ret (None, s)
  | None => Ret (None, s)
  end.

(** [pool22] with temporary workers registered in the order given. *)
Definition with_temps (ws : list worker) : World :=
  mkWorld (set_temporaryWorker (Some (seq 2 (length ws))) (pool pool22))
          (set_heap (heap (rt pool22) ++ ws) (rt pool22)).

Definition idle1 : World :=
  with_temps [mkWorker 9 1 0 2 TEMPORARY [mkTaskContext 0]].
Definition blocked1 : World :=
  with_temps [mkWorker 9 1 1 2 TEMPORARY [mkTaskContext 0]].
Definition two_temps : World :=
  with_temps [mkWorker 11 0 0 2 TEMPORARY []; mkWorker 12 0 0 2 TEMPORARY []].
Definition three_temps : World :=
  with_temps [mkWorker 11 0 0 2 TEMPORARY []; mkWorker 12 0 0 2 TEMPORARY [];
              mkWorker 13 0 0 2 TEMPORARY []].

(** [pool22] with both eternal workers at capacity. *)
Definition full22 : World :=
  upd_rt (set_heap
            [mkWorker 1 2 0 2 ETERNAL [mkTaskContext 0; mkTaskContext 0];
             mkWorker 2 2 0 2 ETERNAL [mkTaskContext 0; mkTaskContext 0]])
         pool22.

(** [pool22] where the pool's own source always draws 0, and where
    the package-level source does so too. *)
Definition colliding22 : World :=
  upd_rt (set_randSource (constant 0)) pool22.
Definition stuck22 : World :=
  upd_rt (set_globalRand (constant 0)) colliding22.

(** The pool [NewPool] builds from two workers of capacity -1: the
    configuration is checked for the worker count only. *)
Definition negative22 : World :=
  mkWorld (mkPool [0%nat; 1%nat] false (mkTaskConf 2 (-1) 5) 2 None)
          (mkRuntime [mkWorker 1 0 0 (-1) ETERNAL []; mkWorker 2 0 0 (-1) ETERNAL []]
                     0 2 counting counting counting).

(** ** Sample runs *)

(** The configuration a schedule leads to, when every event of it can
    occur. *)
Definition played (es : list event) (c : Config) : bool :=
  match play es c with Some _ => true | None => false end.

Definition after (es : list event) (c : Config) : Config :=
  match play es c with Some c' => c' | None => c end.

Definition fresh (s : World) : Config := mkConfig s false [].

(** One caller, one job: [DoJob] takes the fast path in 17 actions. *)
Definition one_job : list event :=
  CallDoJob 5 (mkTaskContext 0) :: repeat (Fire 0%nat) 17%nat.



(** Two overlapping [Close] calls: both load [isClose], then both
    add, then both cancel. *)
Definition two_closes : list event :=
  [CallClose; CallClose; Fire 0%nat; Fire 1%nat; Fire 0%nat; Fire 1%nat;
   Fire 0%nat; Fire 1%nat].

(** Two workers of capacity 0: no worker ever admits a job. *)
Definition conf20 : TaskConf := mkTaskConf 2 0 5.
Definition pool20 : World :=
  mkWorld (mkPool [0%nat; 1%nat] false conf20 2 None)
          (mkRuntime [mkWorker 1 0 0 0 ETERNAL []; mkWorker 2 0 0 0 ETERNAL []]
                     0 2 counting counting counting).

(** A first [DoJob] runs to its end (70 actions); it spawns the
    temporary worker at address 2.  A second [DoJob] reaches the
    temporary registry, finds one entry and is about to take the lock
    (55 actions).  The temporary worker leaves and unregisters itself
    (7 actions).  The second [DoJob] takes the lock and reads the
    registry again (4 actions). *)
Definition exit_before_lock : list event :=
  [CallDoJob 5 (mkTaskContext 0)] ++ repeat (Fire 0%nat) 70%nat
  ++ [CallDoJob 5 (mkTaskContext 1)] ++ repeat (Fire 1%nat) 55%nat
  ++ [Exit 5 2%nat] ++ repeat (Fire 2%nat) 7%nat
  ++ repeat (Fire 1%nat) 4%nat.

(** * Vocabulary of the properties *)

(** [m] keeps the property [I] whenever it returns. *)
Definition stable (I : World -> Prop) {A} (m : M A) : Prop :=
  forall s a s', m s = Ret (a, s') -> I s -> I s'.

(** The workers the loop of [startPool] creates from loop variable [i]
    on, and the state it leaves. *)
Fixpoint eternals (cap i : Z) (n : nat) : list worker :=
  match n with
  | O => []
  | S n' => mkWorker (i + 1) 0 0 cap ETERNAL [] :: eternals cap (i + 1) n'
  end.

Definition started (n : nat) (i : Z) (s : World) : World :=
  mkWorld
    (set_eternalWorker
       (eternalWorker (pool s) ++ seq (length (heap (rt s))) n) (pool s))
    (set_wg (wg (rt s) + Z.of_nat n)
       (set_heap (heap (rt s) ++ eternals (WorkerContent (conf (pool s))) i n)
          (rt s))).

(** The configuration [NewPool] uses, and the pool it builds in the
    runtime [r] from a configuration of at least two workers. *)
Definition built_conf (defaultConf : TaskConf) (c : option TaskConf) : TaskConf :=
  match c with None => defaultConf | Some c' => c' end.

Definition built (cf : TaskConf) (r : Runtime) : World :=
  upd_pool (set_isClose 2)
    (started (Z.to_nat (WorkerNum cf)) 0 (mkWorld (mkPool [] false cf 1 None) r)).

(** The entries of both registries. *)
Definition registered (s : World) : list ptr :=
  eternalWorker (pool s) ++ slice_of (temporaryWorker (pool s)).

(** The first index [getTwoNums] draws in state [s] for a registry of
    size [num]. *)
Definition first_index (num : Z) (s : World) : Z :=
  draws (randSource (rt s)) (pos (randSource (rt s))) mod num.

(** The package-level source does not repeat the first index forever:
    some later draw of it gives another index.  A uniform source does
    so with probability one. *)
Definition eventually_other (num : Z) (s : World) : Prop :=
  exists k : nat,
    draws (globalRand (rt s)) (pos (globalRand (rt s)) + k) mod num
    <> first_index num s.

(** Pool and heap are the same in both states. *)
Definition same_objects (s s' : World) : Prop :=
  pool s' = pool s /\ heap (rt s') = heap (rt s).

(** Every entry of the registry [ws] is a live worker whose load is
    within the configured capacity. *)
Definition registry_ok (s : World) (ws : list ptr) : Prop :=
  forall a, a ∈ ws ->
    exists w, heap (rt s) !! a = Some w /\
              jobNum w <= WorkerContent (conf (pool s)).

(** ** Vocabulary of the further properties *)

(** [removeFromParent id] took one entry out of the temporary
    registry, and that entry is a live worker with identity [id]. *)
Definition removed_one (id : Z) (s s' : World) : Prop :=
  exists (i : nat) (a : ptr) (w : worker),
    slice_of (temporaryWorker (pool s)) !! i = Some a /\
    heap (rt s) !! a = Some w /\ ID w = id /\
    s' = upd_pool (set_temporaryWorker
           (Some (delete i (slice_of (temporaryWorker (pool s)))))) s.

(** [s'] differs from [s] at most by draws taken from the two random
    sources, by the clock, and by a nil temporary registry having
    become an empty one: no worker was written, spawned, registered or
    unregistered, and the pool is neither closed nor cancelled by it. *)
Definition quiet (s s' : World) : Prop :=
  heap (rt s') = heap (rt s) /\
  wg (rt s') = wg (rt s) /\
  uuid (rt s') = uuid (rt s) /\
  draws (randSource (rt s')) = draws (randSource (rt s)) /\
  draws (globalRand (rt s')) = draws (globalRand (rt s)) /\
  eternalWorker (pool s') = eternalWorker (pool s) /\
  conf (pool s') = conf (pool s) /\
  isClose (pool s') = isClose (pool s) /\
  cancelled (pool s') = cancelled (pool s) /\
  slice_of (temporaryWorker (pool s')) = slice_of (temporaryWorker (pool s)).

(** [quiet], with exactly [t] seconds gone by. *)
Definition waited (t : Z) (s s' : World) : Prop :=
  quiet s s' /\ clock (rt s') = clock (rt s) + t.

(** [m] is quiet and takes no time whenever it returns. *)
Definition calm {A} (m : M A) : Prop :=
  forall s a s', m s = Ret (a, s') -> waited 0 s s'.

(** [a] is an entry of the registry [ws] and a live worker, strictly
    below the capacity if the loads of [ws] are within it. *)
Definition admissible (s : World) (ws : list ptr) (a : ptr) : Prop :=
  a ∈ ws /\
  exists w, heap (rt s) !! a = Some w /\
    (registry_ok s ws -> jobNum w < WorkerContent (conf (pool s))).

(** A selector's result [r] is nil or an admissible registered
    worker. *)
Definition pick_ok (s : World) (r : option ptr) : Prop :=
  forall a, r = Some a -> admissible s (registered s) a.

(** How [DoJob] ends on an open pool: the job is sent to a worker [a]
    in a state [s1] reached quietly after [t] seconds of retries.
    Either [a] is an admissible registered worker whose backpressure
    flag is clear and [t] is 0, 3 or 6; or [t] is 6 and [a] is the
    temporary worker spawned then. *)
Definition dispatched (job : TaskContext) (s : World) (b : bool)
    (s' : World) : Prop :=
  exists (t : Z) (s1 : World) (a : ptr),
    waited t s s1 /\
    ((t = 0 \/ t = 3 \/ t = 6) /\
     admissible s1 (registered s1) a /\
     (exists w, heap (rt s1) !! a = Some w /\ Blocking w <> 1) /\
     sendJob a job s1 = Ret (b, s')
     \/
     t = 6 /\
     exists s2, newTempWorker s1 = Ret (a, s2) /\
                sendJob a job s2 = Ret (b, s')).

(** Every worker of [s] is still there in [s'], with the identity,
    kind and capacity it had. *)
Definition same_workers (s s' : World) : Prop :=
  forall a w, heap (rt s) !! a = Some w ->
    exists w', heap (rt s') !! a = Some w' /\
               ID w' = ID w /\ kind w' = kind w /\ capacity w' = capacity w.

(** What one [DoJob] may have changed: never the eternal registry, the
    configuration, the flags of the lifecycle or who the existing
    workers are; and either no worker was spawned, or exactly one,
    which is temporary, registered last and counted in the wait
    group. *)
Definition touched (s s' : World) : Prop :=
  eternalWorker (pool s') = eternalWorker (pool s) /\
  conf (pool s') = conf (pool s) /\
  isClose (pool s') = isClose (pool s) /\
  cancelled (pool s') = cancelled (pool s) /\
  same_workers s s' /\
  ((length (heap (rt s')) = length (heap (rt s)) /\
    wg (rt s') = wg (rt s) /\
    slice_of (temporaryWorker (pool s'))
    = slice_of (temporaryWorker (pool s)))
   \/
   (length (heap (rt s')) = S (length (heap (rt s))) /\
    wg (rt s') = wg (rt s) + 1 /\
    slice_of (temporaryWorker (pool s'))
    = slice_of (temporaryWorker (pool s)) ++ [length (heap (rt s))] /\
    exists w, heap (rt s') !! length (heap (rt s)) = Some w /\
              kind w = TEMPORARY /\
              capacity w = WorkerContent (conf (pool s)))).

(** The eternal registry is the one [NewPool] built from [cf] on a
    heap of [base] objects: its [k]-th entry is the worker of kind
    [ETERNAL] with identity [k + 1] and the configured capacity. *)
Definition eternal_ok (cf : TaskConf) (base : nat) (s : World) : Prop :=
  conf (pool s) = cf /\
  eternalWorker (pool s) = seq base (Z.to_nat (WorkerNum cf)) /\
  forall k : nat, (k < Z.to_nat (WorkerNum cf))%nat ->
    exists w, heap (rt s) !! (base + k)%nat = Some w /\
              ID w = Z.of_nat k + 1 /\ kind w = ETERNAL /\
              capacity w = WorkerContent cf.


(** ** Vocabulary of the selectors *)

(** The two registries, what a selector over each reads, and the size
    it passes to [getTwoWorker]. *)
Inductive registry := EternalRegistry | TemporaryRegistry.

Definition entries (g : registry) (s : World) : list ptr :=
  match g with
  | EternalRegistry => eternalWorker (pool s)
  | TemporaryRegistry => temporary s
  end.

Definition selector (g : registry) : nat -> M (option ptr) :=
  match g with
  | EternalRegistry => getWorkFormEnternal
  | TemporaryRegistry => getWorkerFromTemp
  end.

Definition size (g : registry) (s : World) : Z :=
  match g with
  | EternalRegistry => WorkerNum (conf (pool s))
  | TemporaryRegistry => Z.of_nat (length (temporary s))
  end.

(** The choice between the sampled workers [a1] and [a2], of loads
    [jobNum w1] and [jobNum w2], when [full] says which loads count as
    full: nil if both are full, otherwise one of the two whose
    [jobNum] is not larger than the other's. *)
Definition choice (full : Z -> Prop) (a1 a2 : ptr) (w1 w2 : worker)
    (r : option ptr) : Prop :=
  (full (jobNum w1) /\ full (jobNum w2) -> r = None) /\
  (~ (full (jobNum w1) /\ full (jobNum w2)) ->
   (r = Some a1 /\ jobNum w1 <= jobNum w2) \/
   (r = Some a2 /\ jobNum w2 <= jobNum w1)).

(** Full as the claim has it (at or above the capacity) and as the
    code tests it (at the capacity). *)
Definition at_or_above (cap : Z) : Z -> Prop := fun n => cap <= n.
Definition exactly_at (cap : Z) : Z -> Prop := fun n => n = cap.

(** One invocation of the selector over [g] in state [s]: the two
    indices are the ones [getTwoNums] draws in [s], they are distinct,
    and the result is the [choice] between the workers registered at
    these indices; the invocation ends in the state the draws lead
    to. *)
Definition chooses (full : Z -> Z -> Prop) (g : registry) (fuel : nat)
    (s : World) : Prop :=
  exists (n1 n2 : Z) (a1 a2 : ptr) (w1 w2 : worker) (r : option ptr)
         (s' : World),
    getTwoNums fuel (Z.of_nat (length (entries g s))) s = Ret ((n1, n2), s') /\
    n1 <> n2 /\
    entries g s !! Z.to_nat n1 = Some a1 /\
    entries g s !! Z.to_nat n2 = Some a2 /\
    heap (rt s) !! a1 = Some w1 /\ heap (rt s) !! a2 = Some w2 /\
    selector g fuel s = Ret (r, s') /\
    choice (full (WorkerContent (conf (pool s)))) a1 a2 w1 w2 r.

(** ** Vocabulary of runs *)

(** Every action of [p] keeps [I], in whatever state satisfying [I]
    it is performed (other goroutines run in between, and they keep
    [I] too); and the value [p] returns is in [Q]. *)
Fixpoint sat (I : World -> Prop) {A} (p : prog A) (Q : A -> Prop) : Prop :=
  match p with
  | Done a => Q a
  | Act m k =>
      forall s x s', I s -> m s = Ret (x, s') -> I s' /\ sat I (k x) Q
  | Lock k => sat I k Q
  | Unlock k => sat I k Q
  end.

(** The counter of the worker does not exceed the length of its
    queue, the queue does not exceed the capacity, and the capacity is
    the configured one. *)
Definition bounded (cap : Z) (w : worker) : Prop :=
  jobNum w <= Z.of_nat (length (queue w)) <= capacity w /\ capacity w = cap.

(** What [NewPool] establishes and every action of every goroutine
    keeps, for the configuration [cf] and a heap that had [base]
    objects when the pool was built: the eternal registry is the one
    built; and, for a capacity that is not negative, every worker the
    pool created is [bounded]. *)
Definition Inv (cf : TaskConf) (base : nat) (s : World) : Prop :=
  eternal_ok cf base s /\
  (0 <= WorkerContent cf ->
   forall a w, (base <= a)%nat -> heap (rt s) !! a = Some w ->
     bounded (WorkerContent cf) w).


(** * Properties *)

(** ** Reasoning about computations *)

Lemma bind_Ret {A B} (m : M A) (k : A -> M B) s b s' :
  bind m k s = Ret (b, s') <->
  exists a s1, m s = Ret (a, s1) /\ k a s1 = Ret (b, s').
Proof.
  unfold bind. split.
  - destruct (m s) as [[a s1]| |]; try discriminate. eauto.
  - intros (a & s1 & -> & H). exact H.
Qed.

Lemma bind_eq {A B} (m : M A) (k : A -> M B) s a s1 :
  m s = Ret (a, s1) -> bind m k s = k a s1.
Proof. unfold bind. intros ->. reflexivity. Qed.

Lemma worker_eta w : set_jobNum (jobNum w) w = w.
Proof. destruct w; reflexivity. Qed.

Lemma store_same a w s :
  heap (rt s) !! a = Some w -> store a (set_jobNum (jobNum w) w) s = Ret (tt, s).
Proof.
  intros H. unfold store, modify, upd_rt, set_heap.
  rewrite worker_eta, list_insert_id by exact H.
  destruct s as [p r]; destruct r; reflexivity.
Qed.

Section Stable.
Context (I : World -> Prop).

Lemma stable_ret {A} (a : A) : stable I (ret a).
Proof. intros s b s' [= _ <-]. auto. Qed.

Lemma stable_get : stable I get.
Proof. intros s b s' [= _ <-]. auto. Qed.

Lemma stable_panic {A} msg : stable I (@panic A msg).
Proof. intros s b s' [=]. Qed.

Lemma stable_diverge {A} : stable I (@diverge A).
Proof. intros s b s' [=]. Qed.

Lemma stable_bind {A B} (m : M A) (k : A -> M B) :
  stable I m -> (forall a, stable I (k a)) -> stable I (bind m k).
Proof.
  intros Hm Hk s b s' H HI. apply bind_Ret in H as (a & s1 & H1 & H2).
  eapply Hk; eauto.
Qed.

Lemma stable_modify (f : World -> World) :
  (forall s, I s -> I (f s)) -> stable I (modify f).
Proof. intros Hf s b s' [= _ <-]. auto. Qed.

Lemma stable_unchanged {A} (m : M A) :
  (forall s a s', m s = Ret (a, s') -> s' = s) -> stable I m.
Proof. intros Hm s a s' H HI. rewrite (Hm _ _ _ H). exact HI. Qed.
End Stable.

(** Computations that never write. *)
Lemma index_Ret ws i s a s' :
  index ws i s = Ret (a, s') <->
  0 <= i < Z.of_nat (length ws) /\ ws !! Z.to_nat i = Some a /\ s' = s.
Proof.
  unfold index.
  destruct (0 <=? i) eqn:H0; destruct (i <? Z.of_nat (length ws)) eqn:H1; simpl;
    try apply Z.leb_le in H0; try apply Z.leb_gt in H0;
    try apply Z.ltb_lt in H1; try apply Z.ltb_ge in H1;
    try (split; [discriminate|lia]).
  destruct (ws !! Z.to_nat i) as [b|] eqn:Hb.
  - split.
    + intros [= <- <-]. auto.
    + intros (_ & [= ->] & ->). reflexivity.
  - split; [discriminate|]. intros (_ & [=] & _).
Qed.

Lemma index_unchanged ws i s a s' : index ws i s = Ret (a, s') -> s' = s.
Proof. intros H. apply index_Ret in H. tauto. Qed.

Lemma deref_Ret a s w s' :
  deref a s = Ret (w, s') <-> heap (rt s) !! a = Some w /\ s' = s.
Proof.
  unfold deref. destruct (_ !! _); split; intros H;
    try discriminate; try (destruct H; discriminate).
  - injection H as -> ->. auto.
  - destruct H as [[= ->] ->]. reflexivity.
Qed.

Lemma deref_unchanged a s w s' : deref a s = Ret (w, s') -> s' = s.
Proof. intros H. apply deref_Ret in H. tauto. Qed.

Lemma IsBlocking_Ret a s b s' :
  IsBlocking a s = Ret (b, s') <->
  exists w, heap (rt s) !! a = Some w /\ b = (Blocking w =? 1) /\ s' = s.
Proof.
  unfold IsBlocking. rewrite bind_Ret. split.
  - intros (w & s1 & H1 & H2). apply deref_Ret in H1 as [H1 ->].
    injection H2 as <- <-. eauto.
  - intros (w & H & -> & ->). exists w, s. split; [apply deref_Ret; auto|reflexivity].
Qed.

Lemma LoadInt64_jobNum_Ret a s n s' :
  LoadInt64_jobNum a s = Ret (n, s') <->
  exists w, heap (rt s) !! a = Some w /\ n = jobNum w /\ s' = s.
Proof.
  unfold LoadInt64_jobNum. rewrite bind_Ret. split.
  - intros (w & s1 & H1 & H2). apply deref_Ret in H1 as [H1 ->].
    injection H2 as <- <-. eauto.
  - intros (w & H & -> & ->). exists w, s. split; [apply deref_Ret; auto|reflexivity].
Qed.

(** The compare-and-swap of the selectors writes back the value it
    read: it only tests [jobNum] against the capacity. *)
Lemma atCapacity_Ret a s b s' :
  atCapacity a s = Ret (b, s') <->
  exists w, heap (rt s) !! a = Some w /\
            b = (jobNum w =? WorkerContent (conf (pool s))) /\ s' = s.
Proof.
  unfold atCapacity, CompareAndSwapInt64_jobNum, get.
  split.
  - intros H. apply bind_Ret in H as (s0 & s1 & [= <- <-] & H).
    apply bind_Ret in H as (w & s1 & H1 & H).
    apply deref_Ret in H1 as [Hw ->].
    apply bind_Ret in H as (w' & s1 & H1 & H).
    apply deref_Ret in H1 as [Hw' ->].
    assert (w' = w) as -> by congruence.
    exists w. split; [exact Hw|].
    destruct (jobNum w =? _).
    + apply bind_Ret in H as ([] & s1 & H1 & H).
      rewrite store_same in H1 by exact Hw. injection H1 as <-.
      injection H as <- <-. auto.
    + injection H as <- <-. auto.
  - intros (w & Hw & -> & ->).
    rewrite (bind_eq _ _ s s s) by reflexivity.
    rewrite (bind_eq _ _ s w s) by (apply deref_Ret; auto).
    rewrite (bind_eq _ _ s w s) by (apply deref_Ret; auto).
    destruct (jobNum w =? _); [|reflexivity].
    rewrite (bind_eq _ _ s tt s) by (apply store_same; exact Hw).
    reflexivity.
Qed.

(** ** Lifecycle *)

Lemma isClosed_Ret s : isClosed s = Ret (isClose (pool s) =? 1, s).
Proof. reflexivity. Qed.

Lemma Close_Ret s :
  Close s = Ret (tt, if isClose (pool s) =? 1 then s
                     else upd_pool (fun p => set_cancelled true
                            (set_isClose (wrap32 (isClose p + -1)) p)) s).
Proof.
  unfold Close. rewrite (bind_eq _ _ _ _ _ (isClosed_Ret s)).
  destruct (isClose (pool s) =? 1); reflexivity.
Qed.

Lemma DoJob_closed fuel job s :
  isClose (pool s) = 1 -> DoJob fuel job s = Ret (false, s).
Proof.
  intros H. unfold DoJob. rewrite (bind_eq _ _ _ _ _ (isClosed_Ret s)).
  rewrite H. reflexivity.
Qed.

Lemma NewPool_pool22 : NewPool conf22 None runtime0 = Ret pool22.
Proof. reflexivity. Qed.

(** ** C5: construction *)

Lemma length_eternals cap n : forall i, length (eternals cap i n) = n.
Proof. induction n as [|n IH]; intros i; simpl; [|rewrite IH]; reflexivity. Qed.

Lemma eternals_lookup cap n : forall i k,
  (k < n)%nat ->
  eternals cap i n !! k = Some (mkWorker (i + Z.of_nat k + 1) 0 0 cap ETERNAL []).
Proof.
  induction n as [|n IH]; intros i k Hk; [lia|].
  destruct k as [|k]; simpl.
  - f_equal. f_equal. lia.
  - rewrite IH by lia. f_equal. f_equal. lia.
Qed.

Lemma started_0 i s : started 0 i s = s.
Proof.
  destruct s as [p r]; destruct p, r. unfold started, set_eternalWorker,
    set_wg, set_heap. simpl. rewrite !app_nil_r, Z.add_0_r. reflexivity.
Qed.

Lemma started_S n i s : started n (i + 1) (started 1 i s) = started (S n) i s.
Proof.
  destruct s as [p r]; destruct p, r. unfold started, set_eternalWorker,
    set_wg, set_heap. simpl.
  rewrite length_app, <- !app_assoc. simpl.
  rewrite Nat.add_1_r.
  replace (wg0 + Z.of_nat 1 + Z.of_nat n) with (wg0 + Z.of_nat (S n)) by lia.
  reflexivity.
Qed.

Lemma startPool_loop_started n : forall i s,
  startPool_loop n i s = Ret (tt, started n i s).
Proof.
  induction n as [|n IH]; intros i s.
  - rewrite started_0. reflexivity.
  - change (startPool_loop (S n) i s)
      with (startPool_loop n (i + 1) (started 1 i s)).
    rewrite IH, started_S. reflexivity.
Qed.

Lemma NewPool_built (defaultConf : TaskConf) (c : option TaskConf) (r : Runtime) :
  2 <= WorkerNum (built_conf defaultConf c) ->
  NewPool defaultConf c r = Ret (built (built_conf defaultConf c) r).
Proof.
  intros H. unfold NewPool. fold (built_conf defaultConf c).
  assert ((WorkerNum (built_conf defaultConf c) <? 2) = false) as ->
    by (apply Z.ltb_ge; lia).
  unfold startPool.
  rewrite (bind_eq _ _ _ _ _ eq_refl).
  rewrite (bind_eq _ _ _ _ _ (startPool_loop_started _ _ _)).
  reflexivity.
Qed.

Lemma NewPool_Ret d c r s :
  NewPool d c r = Ret s ->
  2 <= WorkerNum (built_conf d c) /\ s = built (built_conf d c) r.
Proof.
  intros H. destruct (Z.lt_ge_cases (WorkerNum (built_conf d c)) 2) as [Hlt|Hge].
  - unfold NewPool in H. fold (built_conf d c) in H. apply Z.ltb_lt in Hlt.
    rewrite Hlt in H. discriminate.
  - rewrite NewPool_built in H by exact Hge. injection H as <-. auto.
Qed.

Lemma built_registry cf r a :
  a ∈ eternalWorker (pool (built cf r)) ->
  (length (heap r) <= a < length (heap (rt (built cf r))))%nat /\
  exists id, heap (rt (built cf r)) !! a
             = Some (mkWorker id 0 0 (WorkerContent cf) ETERNAL []).
Proof.
  unfold built, started. simpl. rewrite length_app, length_eternals.
  intros [H1 H2]%elem_of_seq. split; [lia|].
  exists (0 + Z.of_nat (a - length (heap r)) + 1).
  rewrite lookup_app_r by lia. apply eternals_lookup. lia.
Qed.

(** C5.  Below two workers [NewPool] panics and no pool exists; from
    two on it returns a pool whose eternal registry holds exactly
    [WorkerNum] distinct workers, all spawned by this call, fresh and
    counted in the wait group, and which is open. *)
Theorem NewPool_spec (defaultConf : TaskConf) (c : option TaskConf) (r : Runtime) :
  let cf := match c with None => defaultConf | Some c' => c' end in
  (WorkerNum cf < 2 ->
     NewPool defaultConf c r = Panic "NewPool: Worker Num at least 2") /\
  (2 <= WorkerNum cf ->
     exists s, NewPool defaultConf c r = Ret s /\
       conf (pool s) = cf /\
       Z.of_nat (length (eternalWorker (pool s))) = WorkerNum cf /\
       NoDup (eternalWorker (pool s)) /\
       (forall a, a ∈ eternalWorker (pool s) ->
          (length (heap r) <= a)%nat /\
          exists w, heap (rt s) !! a = Some w /\ kind w = ETERNAL /\
            jobNum w = 0 /\ Blocking w = 0 /\ capacity w = WorkerContent cf) /\
       wg (rt s) = wg r + WorkerNum cf /\
       Z.of_nat (length (heap (rt s))) = Z.of_nat (length (heap r)) + WorkerNum cf /\
       temporaryWorker (pool s) = None /\
       cancelled (pool s) = false /\
       isClosed s = Ret (false, s)).
Proof.
  intros cf. split; intros H.
  - unfold NewPool. fold cf. apply Z.ltb_lt in H. rewrite H. reflexivity.
  - exists (built cf r). split; [apply NewPool_built; exact H|].
    split; [reflexivity|].
    split; [unfold built, started; simpl; rewrite length_seq; lia|].
    split; [unfold built, started; simpl; apply NoDup_seq|].
    split.
    { intros a Ha. apply built_registry in Ha as [Hlt (id & Hw)].
      split; [lia|]. eexists. split; [exact Hw|]. simpl. auto. }
    split; [unfold built, started; simpl; lia|].
    split; [unfold built, started; simpl;
            rewrite length_app, length_eternals; lia|].
    repeat split.
Qed.

Lemma NewPool_spec_witness :
  NewPool conf22 (Some (mkTaskConf 1 2 5)) runtime0
    = Panic "NewPool: Worker Num at least 2" /\
  exists s, NewPool conf22 None runtime0 = Ret s /\
            Z.of_nat (length (eternalWorker (pool s))) = 2 /\
            isClosed s = Ret (false, s).
Proof.
  split.
  - apply (NewPool_spec conf22 (Some (mkTaskConf 1 2 5)) runtime0). simpl. lia.
  - destruct (NewPool_spec conf22 None runtime0) as [_ H].
    destruct H as (s & H1 & _ & H2 & _ & _ & _ & _ & _ & _ & H3);
      [simpl; lia|].
    exists s. auto.
Defined.

(** ** C1: a closed pool rejects *)

(** C1.  If the pool is closed, [DoJob] returns false at once and the
    whole state is as before: no worker was selected (no draw was
    taken, no time passed), no temporary worker was spawned, no worker
    was written. *)
Theorem DoJob_closed_rejects fuel job s :
  isClosed s = Ret (true, s) -> DoJob fuel job s = Ret (false, s).
Proof.
  rewrite isClosed_Ret. intros [= H]. apply DoJob_closed.
  apply Z.eqb_eq. exact H.
Qed.

Lemma DoJob_closed_rejects_witness :
  DoJob 0 (mkTaskContext 7) closed22 = Ret (false, closed22).
Proof. apply (DoJob_closed_rejects 0 (mkTaskContext 7) closed22). reflexivity. Defined.

(** ** C3: the retry loop *)

(** Reading the backpressure flag of the worker an attempt returned has
    no effect. *)
Lemma attempt_peek {B} (f : M (option ptr)) (k : option ptr -> M B) s :
  (forall s0 a s1, f s0 = Ret (Some a, s1) -> is_Some (heap (rt s1) !! a)) ->
  bind f (fun w' =>
    bind (match w' with
          | None => ret tt
          | Some a => do _ <- IsBlocking a; ret tt
          end) (fun _ => k w')) s
  = bind f k s.
Proof.
  intros Hlive. unfold bind.
  destruct (f s) as [[[a|] s1]| |] eqn:E; try reflexivity.
  destruct (Hlive _ _ _ E) as [w Hw].
  unfold IsBlocking, deref, bind, ret. rewrite Hw. reflexivity.
Qed.

Lemma bind_ret_r {A} (m : M A) s : bind m ret s = m s.
Proof. unfold bind, ret. destruct (m s) as [[a s1]| |]; reflexivity. Qed.

Lemma bind_ext {A B} (m : M A) (k1 k2 : A -> M B) s :
  (forall a s1, k1 a s1 = k2 a s1) -> bind m k1 s = bind m k2 s.
Proof. intros H. unfold bind. destruct (m s) as [[a s1]| |]; auto. Qed.

(** C3.  For any selector [f] (one that returns nil or a live worker),
    [getWorkStep 3 1 f] is exactly: wait one second, call [f], wait one
    second, call [f], wait one second, call [f] and return what this
    third call returned.  The results of the first two calls are
    dropped whatever they are, and the third is returned as it is. *)
Theorem getWorkStep_three_attempts (f : M (option ptr)) (s : World) :
  (forall s0 a s1, f s0 = Ret (Some a, s1) -> is_Some (heap (rt s1) !! a)) ->
  getWorkStep 3 1 f s
  = (do _ <- tick 1; do _ <- f;
     do _ <- tick 1; do _ <- f;
     do _ <- tick 1; f) s.
Proof.
  intros Hlive. unfold getWorkStep. simpl.
  apply bind_ext. intros _ s1. rewrite attempt_peek by exact Hlive.
  apply bind_ext. intros _ s2.
  apply bind_ext. intros _ s3. rewrite attempt_peek by exact Hlive.
  apply bind_ext. intros _ s4.
  apply bind_ext. intros _ s5. rewrite attempt_peek by exact Hlive.
  apply bind_ret_r.
Qed.

Lemma flaky_live s0 a s1 :
  flaky s0 = Ret (Some a, s1) -> is_Some (heap (rt s1) !! a).
Proof.
  unfold flaky. destruct (heap (rt s0) !! 0%nat) as [w|] eqn:E; [|discriminate].
  destruct (clock (rt s0) <? 3); [|discriminate].
  intros H. injection H as Ha Hs. subst a s1. exists w. exact E.
Qed.

(** The first two attempts return an idle worker, the third returns
    nil, and nil is the result, three seconds later. *)
Lemma getWorkStep_three_attempts_witness :
  getWorkStep 3 1 flaky pool22
    = (do _ <- tick 1; do _ <- flaky;
       do _ <- tick 1; do _ <- flaky;
       do _ <- tick 1; flaky) pool22 /\
  flaky (upd_rt (set_clock 1) pool22) = Ret (Some 0%nat, upd_rt (set_clock 1) pool22) /\
  flaky (upd_rt (set_clock 2) pool22) = Ret (Some 0%nat, upd_rt (set_clock 2) pool22) /\
  getWorkStep 3 1 flaky pool22 = Ret (None, upd_rt (set_clock 3) pool22).
Proof.
  split; [|repeat split].
  apply (getWorkStep_three_attempts flaky pool22 flaky_live).
Defined.

(** ** C7: a temporary registry of one *)

Lemma getWorkerFromTemp_one fuel s a w :
  temporaryWorker (pool s) = Some [a] ->
  heap (rt s) !! a = Some w ->
  getWorkerFromTemp fuel s
  = Ret (if (jobNum w =? WorkerContent (conf (pool s))) || (Blocking w =? 1)
         then None else Some a, s).
Proof.
  intros Ht Hw. unfold getWorkerFromTemp.
  rewrite (bind_eq _ _ s s s) by reflexivity. rewrite Ht. simpl.
  rewrite (bind_eq _ _ s a s) by reflexivity.
  rewrite (bind_eq _ _ s (jobNum w =? WorkerContent (conf (pool s))) s)
    by (apply atCapacity_Ret; eauto).
  destruct (jobNum w =? _); simpl.
  - reflexivity.
  - rewrite (bind_eq _ _ s (Blocking w =? 1) s) by (apply IsBlocking_Ret; eauto).
    destruct (Blocking w =? 1); reflexivity.
Qed.

(** C7, as the code has it.  On a temporary registry of exactly one
    worker whose load is within its capacity, [getWorkerFromTemp]
    returns that worker if its [jobNum] is strictly below the capacity
    and its backpressure flag is clear, and nil otherwise; the state is
    untouched, so no index was drawn: the two-sample path is not
    taken. *)
Theorem getWorkerFromTemp_single fuel s a w :
  temporaryWorker (pool s) = Some [a] ->
  heap (rt s) !! a = Some w ->
  jobNum w <= WorkerContent (conf (pool s)) ->
  getWorkerFromTemp fuel s
  = Ret (if (jobNum w <? WorkerContent (conf (pool s))) && negb (Blocking w =? 1)
         then Some a else None, s).
Proof.
  intros Ht Hw Hle. rewrite (getWorkerFromTemp_one fuel s a w Ht Hw).
  destruct (Z.eqb_spec (jobNum w) (WorkerContent (conf (pool s))));
    destruct (Z.ltb_spec (jobNum w) (WorkerContent (conf (pool s))));
    destruct (Blocking w =? 1); simpl; try reflexivity; lia.
Qed.

Lemma getWorkerFromTemp_single_witness :
  getWorkerFromTemp 0 idle1 = Ret (Some 2%nat, idle1).
Proof.
  apply (getWorkerFromTemp_single 0 idle1 2%nat
           (mkWorker 9 1 0 2 TEMPORARY [mkTaskContext 0]));
    [reflexivity|reflexivity|simpl; lia].
Defined.

(** C7 as stated fails: the only temporary worker holds one job, its
    capacity is 2, yet the selector returns nil, because its
    backpressure flag is still set. *)
Lemma getWorkerFromTemp_single_blocked :
  temporaryWorker (pool blocked1) = Some [2%nat] /\
  heap (rt blocked1) !! 2%nat
  = Some (mkWorker 9 1 1 2 TEMPORARY [mkTaskContext 0]) /\
  jobNum (mkWorker 9 1 1 2 TEMPORARY [mkTaskContext 0])
  < WorkerContent (conf (pool blocked1)) /\
  getWorkerFromTemp 0 blocked1 = Ret (None, blocked1).
Proof. repeat split. Qed.

(** ** C4 and C10: unregistering a temporary worker *)

Lemma removeFromParent_many fuel id s ws :
  temporaryWorker (pool s) = Some ws -> (2 <= length ws)%nat ->
  removeFromParent fuel id s
  = removeFromParent_loop fuel id 0 (Z.of_nat (length ws) - 1) s.
Proof.
  intros Ht Hlen. unfold removeFromParent.
  rewrite (bind_eq _ _ s s s) by reflexivity. rewrite Ht.
  destruct (Z.of_nat (length ws) =? 0) eqn:E0; [apply Z.eqb_eq in E0; lia|].
  destruct (Z.of_nat (length ws) =? 1) eqn:E1; [apply Z.eqb_eq in E1; lia|].
  reflexivity.
Qed.

(** C4, on the code.  With two temporary workers registered, a call
    for any identity other than the first entry's returns with the
    registry as it was: the second entry is never compared, so the
    worker registered second is never removed, whatever the order of
    the identities. *)
Theorem removeFromParent_skips_second fuel id s a b wa :
  temporaryWorker (pool s) = Some [a; b] ->
  heap (rt s) !! a = Some wa ->
  ID wa <> id ->
  removeFromParent (S fuel) id s = Ret (tt, s).
Proof.
  intros Ht Ha Hne. rewrite (removeFromParent_many _ _ _ _ Ht) by (simpl; lia).
  simpl. rewrite (bind_eq _ _ s s s) by reflexivity. rewrite Ht. simpl.
  rewrite (bind_eq _ _ s a s) by reflexivity.
  rewrite (bind_eq _ _ s wa s) by (apply deref_Ret; auto).
  destruct (ID wa =? id) eqn:E; [apply Z.eqb_eq in E; contradiction|].
  destruct (ID wa >? id) eqn:Eg.
  - destruct fuel; reflexivity.
  - destruct (ID wa <? id) eqn:El.
    + destruct fuel; reflexivity.
    + apply Z.eqb_neq in E. apply Z.ltb_ge in El.
      rewrite Z.gtb_ltb in Eg. apply Z.ltb_ge in Eg. lia.
Qed.

(** Two workers registered in increasing order of identity, 11 then
    12: unregistering 12 leaves it registered. *)
Lemma removeFromParent_skips_second_witness :
  removeFromParent 1 12 two_temps = Ret (tt, two_temps) /\
  temporaryWorker (pool two_temps) = Some [2%nat; 3%nat] /\
  heap (rt two_temps) !! 3%nat = Some (mkWorker 12 0 0 2 TEMPORARY []).
Proof.
  split; [|split; reflexivity].
  apply (removeFromParent_skips_second 0 12 two_temps 2%nat 3%nat
           (mkWorker 11 0 0 2 TEMPORARY [])); [reflexivity|reflexivity|].
  simpl. lia.
Defined.

(** C10, on the code.  With three or more temporary workers registered
    the first probe index is [0 + (0 - (len - 1)) / 2], which is
    negative, and [removeFromParent] panics on it, for every
    identity. *)
Theorem removeFromParent_probe_out_of_range fuel id s ws :
  temporaryWorker (pool s) = Some ws -> (3 <= length ws)%nat ->
  0 + Z.quot (0 - (Z.of_nat (length ws) - 1)) 2 < 0 /\
  removeFromParent (S fuel) id s = Panic "index out of range".
Proof.
  intros Ht Hlen.
  assert (0 + Z.quot (0 - (Z.of_nat (length ws) - 1)) 2 < 0) as Hmid.
  { replace (0 - (Z.of_nat (length ws) - 1))
      with (- (Z.of_nat (length ws) - 1)) by lia.
    rewrite Z.quot_opp_l by lia. rewrite Z.quot_div_nonneg by lia.
    assert (1 <= (Z.of_nat (length ws) - 1) / 2)
      by (apply Z.div_le_lower_bound; lia).
    lia. }
  split; [exact Hmid|].
  rewrite (removeFromParent_many _ _ _ _ Ht) by lia.
  simpl. destruct (0 <? Z.of_nat (length ws) - 1) eqn:E;
    [|apply Z.ltb_ge in E; lia].
  rewrite (bind_eq _ _ s s s) by reflexivity. rewrite Ht. simpl.
  unfold bind, index.
  destruct (0 <=? 0 + Z.quot (0 - (Z.of_nat (length ws) - 1)) 2) eqn:E0;
    [apply Z.leb_le in E0; lia|].
  reflexivity.
Qed.

Lemma removeFromParent_probe_out_of_range_witness :
  removeFromParent 1 12 three_temps = Panic "index out of range".
Proof.
  apply (removeFromParent_probe_out_of_range 0 12 three_temps
           [2%nat; 3%nat; 4%nat]); [reflexivity|simpl; lia].
Defined.

(** ** C9: two distinct indices *)

Lemma randSource_Intn_Ret num s :
  0 < num ->
  randSource_Intn num s
  = Ret (draws (randSource (rt s)) (pos (randSource (rt s))) mod num,
         upd_rt (set_randSource (mkRng (draws (randSource (rt s)))
                                   (S (pos (randSource (rt s)))))) s).
Proof.
  intros H. unfold randSource_Intn.
  destruct (num <=? 0) eqn:E; [apply Z.leb_le in E; lia|]. reflexivity.
Qed.

Lemma rand_Intn_Ret num s :
  0 < num ->
  rand_Intn num s
  = Ret (draws (globalRand (rt s)) (pos (globalRand (rt s))) mod num,
         upd_rt (set_globalRand (mkRng (draws (globalRand (rt s)))
                                   (S (pos (globalRand (rt s)))))) s).
Proof.
  intros H. unfold rand_Intn.
  destruct (num <=? 0) eqn:E; [apply Z.leb_le in E; lia|]. reflexivity.
Qed.

Lemma resample_distinct fuel num n1 n2 s :
  n1 <> n2 -> resample fuel num n1 n2 s = Ret ((n1, n2), s).
Proof.
  intros H. apply Z.eqb_neq in H. destruct fuel; simpl; rewrite H; reflexivity.
Qed.

(** If the package-level source yields an index other than [n1] at its
    [k]-th next draw, more than [k] rounds of fuel let the loop end. *)
Lemma resample_terminates num n1 : 0 < num -> forall k n2 s fuel,
  draws (globalRand (rt s)) (pos (globalRand (rt s)) + k) mod num <> n1 ->
  0 <= n2 < num -> (k < fuel)%nat ->
  exists n2' s',
    resample fuel num n1 n2 s = Ret ((n1, n2'), s') /\
    n1 <> n2' /\ 0 <= n2' < num /\ same_objects s s'.
Proof.
  intros Hnum. induction k as [|k IH]; intros n2 s fuel Hk Hn2 Hfuel.
  - destruct (Z.eq_dec n1 n2) as [->|Hne].
    + destruct fuel as [|fuel]; [lia|]. simpl. rewrite Z.eqb_refl.
      rewrite (bind_eq _ _ _ _ _ (rand_Intn_Ret num s Hnum)).
      rewrite Nat.add_0_r in Hk.
      rewrite resample_distinct by auto.
      eexists _, _. split; [reflexivity|]. split; [auto|].
      split; [apply Z.mod_pos_bound; lia|]. split; reflexivity.
    + rewrite resample_distinct by exact Hne.
      exists n2, s. repeat split; auto; lia.
  - destruct (Z.eq_dec n1 n2) as [->|Hne].
    + destruct fuel as [|fuel]; [lia|]. simpl. rewrite Z.eqb_refl.
      rewrite (bind_eq _ _ _ _ _ (rand_Intn_Ret num s Hnum)).
      edestruct (IH (draws (globalRand (rt s)) (pos (globalRand (rt s))) mod num)
                    (upd_rt (set_globalRand
                       (mkRng (draws (globalRand (rt s)))
                              (S (pos (globalRand (rt s)))))) s) fuel)
        as (n2' & s' & Hrun & Hd & Hr & Hp & Hh).
      { simpl. rewrite <- Nat.add_succ_r. exact Hk. }
      { apply Z.mod_pos_bound. lia. }
      { lia. }
      exists n2', s'. repeat split; auto; lia.
    + rewrite resample_distinct by exact Hne.
      exists n2, s. repeat split; auto; lia.
Qed.

Lemma getTwoNums_returns num s :
  2 <= num -> eventually_other num s ->
  exists fuel0, forall fuel, (fuel0 <= fuel)%nat ->
    exists n2 s',
      getTwoNums fuel num s = Ret ((first_index num s, n2), s') /\
      first_index num s <> n2 /\
      0 <= first_index num s < num /\ 0 <= n2 < num /\ same_objects s s'.
Proof.
  intros Hnum [k Hk]. exists (S k). intros fuel Hfuel. unfold getTwoNums.
  rewrite (bind_eq _ _ _ _ _ (randSource_Intn_Ret num s ltac:(lia))).
  rewrite (bind_eq _ _ _ _ _ (randSource_Intn_Ret num _ ltac:(lia))).
  edestruct (resample_terminates num (first_index num s) ltac:(lia) k)
    as (n2' & s' & Hrun & Hd & Hr & Hp & Hh);
    [| |apply Hfuel|].
  3: { exists n2', s'. split; [exact Hrun|]. split; [exact Hd|].
       split; [apply Z.mod_pos_bound; lia|]. split; [exact Hr|].
       split; [exact Hp|exact Hh]. }
  - exact Hk.
  - apply Z.mod_pos_bound. lia.
Qed.

Lemma index_in_range (ws : list ptr) n s :
  0 <= n < Z.of_nat (length ws) ->
  exists a, ws !! Z.to_nat n = Some a /\ index ws n s = Ret (a, s).
Proof.
  intros Hn. destruct (lookup_lt_is_Some_2 ws (Z.to_nat n)) as [a Ha]; [lia|].
  exists a. split; [exact Ha|]. apply index_Ret. auto.
Qed.

(** The two workers [getTwoWorker] returns sit at two distinct
    positions of the registry. *)
Lemma getTwoWorker_returns num ws s :
  2 <= num -> Z.of_nat (length ws) = num -> eventually_other num s ->
  exists fuel0, forall fuel, (fuel0 <= fuel)%nat ->
    exists i j w1 w2 s',
      getTwoWorker fuel num ws s = Ret ((w1, w2), s') /\
      i <> j /\ ws !! i = Some w1 /\ ws !! j = Some w2 /\ same_objects s s'.
Proof.
  intros Hnum Hlen Hev.
  destruct (getTwoNums_returns num s Hnum Hev) as (fuel0 & Hruns).
  exists fuel0. intros fuel Hfuel.
  destruct (Hruns fuel Hfuel) as (n2 & s' & Hrun & Hd & Hr1 & Hr2 & Hsame).
  destruct (index_in_range ws (first_index num s) s') as (w1 & Hw1 & Hi1); [lia|].
  destruct (index_in_range ws n2 s') as (w2 & Hw2 & Hi2); [lia|].
  exists (Z.to_nat (first_index num s)), (Z.to_nat n2), w1, w2, s'.
  split.
  { unfold getTwoWorker. rewrite (bind_eq _ _ _ _ _ Hrun).
    rewrite (bind_eq _ _ _ _ _ Hi1), (bind_eq _ _ _ _ _ Hi2). reflexivity. }
  split; [lia|]. auto.
Qed.

(** C9.  For a registry size of at least two, and a package-level
    source that does not return the first index forever, [getTwoNums]
    returns once it has enough fuel: two distinct indices, both in
    range; and [getTwoWorker], on a registry of that size without
    repeated entries, returns two distinct workers of the registry. *)
Theorem getTwoNums_distinct num s :
  2 <= num -> eventually_other num s ->
  exists fuel0, forall fuel, (fuel0 <= fuel)%nat ->
    exists n1 n2 s',
      getTwoNums fuel num s = Ret ((n1, n2), s') /\
      n1 <> n2 /\ 0 <= n1 < num /\ 0 <= n2 < num /\
      forall ws, Z.of_nat (length ws) = num -> NoDup ws ->
        exists w1 w2,
          getTwoWorker fuel num ws s = Ret ((w1, w2), s') /\
          w1 <> w2 /\ w1 ∈ ws /\ w2 ∈ ws.
Proof.
  intros Hnum Hev.
  destruct (getTwoNums_returns num s Hnum Hev) as (fuel0 & Hruns).
  exists fuel0. intros fuel Hfuel.
  destruct (Hruns fuel Hfuel) as (n2 & s' & Hrun & Hd & Hr1 & Hr2 & Hsame).
  exists (first_index num s), n2, s'.
  split; [exact Hrun|]. split; [exact Hd|]. split; [exact Hr1|].
  split; [exact Hr2|]. intros ws Hlen Hnd.
  destruct (index_in_range ws (first_index num s) s') as (w1 & Hw1 & Hi1); [lia|].
  destruct (index_in_range ws n2 s') as (w2 & Hw2 & Hi2); [lia|].
  exists w1, w2. split.
  { unfold getTwoWorker. rewrite (bind_eq _ _ _ _ _ Hrun).
    rewrite (bind_eq _ _ _ _ _ Hi1), (bind_eq _ _ _ _ _ Hi2). reflexivity. }
  split.
  { intros ->. pose proof (NoDup_lookup _ _ _ _ Hnd Hw1 Hw2). lia. }
  split; eapply list_elem_of_lookup_2; eauto.
Qed.

Lemma colliding22_eventually_other : eventually_other 2 colliding22.
Proof. exists 1%nat. vm_compute. discriminate. Defined.

(** The pool's source collides (0 and 0), the package-level source
    yields 0 and then 1. *)
Lemma getTwoNums_distinct_witness :
  exists fuel0, forall fuel, (fuel0 <= fuel)%nat ->
    exists n1 n2 s',
      getTwoNums fuel 2 colliding22 = Ret ((n1, n2), s') /\
      n1 <> n2 /\ 0 <= n1 < 2 /\ 0 <= n2 < 2 /\
      forall ws, Z.of_nat (length ws) = 2 -> NoDup ws ->
        exists w1 w2,
          getTwoWorker fuel 2 ws colliding22 = Ret ((w1, w2), s') /\
          w1 <> w2 /\ w1 ∈ ws /\ w2 ∈ ws.
Proof.
  apply (getTwoNums_distinct 2 colliding22); [lia|].
  exact colliding22_eventually_other.
Defined.

(** The assumption on the source is needed: when both sources repeat
    one value forever the loop never ends, whatever the fuel. *)
Lemma resample_stuck fuel : forall s,
  draws (globalRand (rt s)) = (fun _ => 0) -> resample fuel 2 0 0 s = Diverge.
Proof.
  induction fuel as [|fuel IH]; intros s Hs; [reflexivity|].
  simpl. rewrite (bind_eq _ _ _ _ _ (rand_Intn_Ret 2 s ltac:(lia))).
  rewrite Hs. apply IH. reflexivity.
Qed.

Lemma getTwoNums_stuck fuel : getTwoNums fuel 2 stuck22 = Diverge.
Proof.
  unfold getTwoNums.
  rewrite (bind_eq _ _ _ _ _ (randSource_Intn_Ret 2 _ ltac:(lia))).
  rewrite (bind_eq _ _ _ _ _ (randSource_Intn_Ret 2 _ ltac:(lia))).
  apply resample_stuck. reflexivity.
Qed.

(** ** C2: the selectors *)

Lemma pickLessLoaded_Ret a1 a2 w1 w2 s :
  heap (rt s) !! a1 = Some w1 -> heap (rt s) !! a2 = Some w2 ->
  pickLessLoaded a1 a2 s
  = Ret (if (jobNum w1 =? WorkerContent (conf (pool s)))
            && (jobNum w2 =? WorkerContent (conf (pool s)))
         then None
         else if jobNum w1 <? jobNum w2 then Some a1 else Some a2, s).
Proof.
  intros H1 H2. unfold pickLessLoaded.
  rewrite (bind_eq _ _ s (jobNum w1 =? WorkerContent (conf (pool s))) s)
    by (apply atCapacity_Ret; eauto).
  assert (LoadInt64_jobNum a1 s = Ret (jobNum w1, s)) as L1
    by (apply LoadInt64_jobNum_Ret; eauto).
  assert (LoadInt64_jobNum a2 s = Ret (jobNum w2, s)) as L2
    by (apply LoadInt64_jobNum_Ret; eauto).
  destruct (jobNum w1 =? _); simpl.
  - rewrite (bind_eq _ _ s (jobNum w2 =? WorkerContent (conf (pool s))) s)
      by (apply atCapacity_Ret; eauto).
    destruct (jobNum w2 =? _); [reflexivity|].
    rewrite (bind_eq _ _ _ _ _ L1), (bind_eq _ _ _ _ _ L2).
    destruct (jobNum w1 <? jobNum w2); reflexivity.
  - rewrite (bind_eq _ _ s false s) by reflexivity.
    rewrite (bind_eq _ _ _ _ _ L1), (bind_eq _ _ _ _ _ L2).
    destruct (jobNum w1 <? jobNum w2); reflexivity.
Qed.

(** C2, as the code has it.  On a registry of at least two live
    workers, with a source that does not repeat the first index
    forever, one invocation of the selector (over the eternal registry,
    or over a temporary registry of that size) returns once it has
    enough fuel.  It samples the two indices [getTwoNums] draws, which
    are distinct, and returns nil if the [jobNum] of both sampled
    workers equals the capacity, otherwise the sampled worker whose
    [jobNum] is not larger than the other's.  The test is for equality:
    a load above the capacity does not count as full. *)
Theorem selectors_two_choices g s :
  2 <= Z.of_nat (length (entries g s)) ->
  size g s = Z.of_nat (length (entries g s)) ->
  (forall a, a ∈ entries g s -> is_Some (heap (rt s) !! a)) ->
  eventually_other (Z.of_nat (length (entries g s))) s ->
  exists fuel0, forall fuel, (fuel0 <= fuel)%nat ->
    chooses exactly_at g fuel s.
Proof.
  intros Hlen Hsize Hlive Hev.
  destruct (getTwoNums_returns _ s Hlen Hev) as (fuel0 & Hruns).
  exists fuel0. intros fuel Hfuel.
  destruct (Hruns fuel Hfuel) as (n2 & s' & Hrun & Hd & Hr1 & Hr2 & Hp & Hh).
  set (n1 := first_index (Z.of_nat (length (entries g s))) s) in *.
  destruct (index_in_range (entries g s) n1 s') as (a1 & Ha1 & Hi1); [lia|].
  destruct (index_in_range (entries g s) n2 s') as (a2 & Ha2 & Hi2); [lia|].
  destruct (Hlive a1) as [w1 Hw1]; [eapply list_elem_of_lookup_2; eauto|].
  destruct (Hlive a2) as [w2 Hw2]; [eapply list_elem_of_lookup_2; eauto|].
  exists n1, n2, a1, a2, w1, w2.
  exists (if (jobNum w1 =? WorkerContent (conf (pool s)))
             && (jobNum w2 =? WorkerContent (conf (pool s)))
          then None
          else if jobNum w1 <? jobNum w2 then Some a1 else Some a2), s'.
  repeat (split; [assumption|]). split.
  - assert (getTwoWorker fuel (Z.of_nat (length (entries g s))) (entries g s) s
            = Ret ((a1, a2), s')) as Htwo.
    { unfold getTwoWorker. rewrite (bind_eq _ _ _ _ _ Hrun).
      rewrite (bind_eq _ _ _ _ _ Hi1), (bind_eq _ _ _ _ _ Hi2). reflexivity. }
    assert (pickLessLoaded a1 a2 s'
            = Ret (if (jobNum w1 =? WorkerContent (conf (pool s)))
                      && (jobNum w2 =? WorkerContent (conf (pool s)))
                   then None
                   else if jobNum w1 <? jobNum w2 then Some a1 else Some a2, s'))
      as Hpick.
    { rewrite <- Hp. apply pickLessLoaded_Ret; rewrite Hh; assumption. }
    destruct g; simpl in *.
    + unfold getWorkFormEnternal. rewrite (bind_eq _ _ s s s) by reflexivity.
      rewrite Hsize, (bind_eq _ _ _ _ _ Htwo). exact Hpick.
    + unfold getWorkerFromTemp. rewrite (bind_eq _ _ s s s) by reflexivity.
      unfold temporary in *.
      destruct (temporaryWorker (pool s)) as [ws|]; simpl in *; [|lia].
      destruct (Z.of_nat (length ws) =? 0) eqn:E0; [apply Z.eqb_eq in E0; lia|].
      destruct (Z.of_nat (length ws) =? 1) eqn:E1; [apply Z.eqb_eq in E1; lia|].
      rewrite (bind_eq _ _ _ _ _ Htwo). exact Hpick.
  - unfold choice, exactly_at.
    destruct (Z.eqb_spec (jobNum w1) (WorkerContent (conf (pool s))));
      destruct (Z.eqb_spec (jobNum w2) (WorkerContent (conf (pool s)))); simpl.
    1: split; [reflexivity|intros H; exfalso; apply H; auto].
    all: split; [intros [? ?]; contradiction|intros _];
      destruct (Z.ltb_spec (jobNum w1) (jobNum w2));
      [left|right]; split; try reflexivity; lia.
Qed.

Lemma eventually_other_two_temps : eventually_other 2 two_temps.
Proof. exists 1%nat. vm_compute. discriminate. Defined.

(** Both registries of [two_temps] hold two idle workers. *)
Lemma selectors_two_choices_witness :
  (exists fuel0, forall fuel, (fuel0 <= fuel)%nat ->
     chooses exactly_at EternalRegistry fuel two_temps) /\
  (exists fuel0, forall fuel, (fuel0 <= fuel)%nat ->
     chooses exactly_at TemporaryRegistry fuel two_temps).
Proof.
  split.
  - apply (selectors_two_choices EternalRegistry two_temps).
    + simpl. lia.
    + reflexivity.
    + intros a Ha. change (a ∈ [0; 1]%nat) in Ha.
      repeat (apply elem_of_cons in Ha as [->|Ha]; [eexists; reflexivity|]).
      apply elem_of_nil in Ha. contradiction.
    + exact eventually_other_two_temps.
  - apply (selectors_two_choices TemporaryRegistry two_temps).
    + simpl. lia.
    + reflexivity.
    + intros a Ha. change (a ∈ [2; 3]%nat) in Ha.
      repeat (apply elem_of_cons in Ha as [->|Ha]; [eexists; reflexivity|]).
      apply elem_of_nil in Ha. contradiction.
    + exact eventually_other_two_temps.
Defined.

Lemma getWorkFormEnternal_negative22 fuel :
  getWorkFormEnternal fuel negative22
  = Ret (Some 1%nat, upd_rt (set_randSource (mkRng Z.of_nat 2)) negative22).
Proof. destruct fuel; reflexivity. Qed.

Lemma getTwoNums_negative22 fuel :
  getTwoNums fuel 2 negative22
  = Ret ((0, 1), upd_rt (set_randSource (mkRng Z.of_nat 2)) negative22).
Proof. destruct fuel; reflexivity. Qed.

(** C2 as stated fails.  In the pool [NewPool] builds from two workers
    of capacity -1, both workers are above the capacity (their
    [jobNum] is 0), yet the selector returns the second one, whatever
    the fuel: with "at or above" for full, it should return nil. *)
Lemma selectors_above_capacity :
  NewPool conf22 (Some (mkTaskConf 2 (-1) 5)) runtime0 = Ret negative22 /\
  (forall fuel, exists s',
     getWorkFormEnternal fuel negative22 = Ret (Some 1%nat, s')) /\
  (forall fuel, ~ chooses at_or_above EternalRegistry fuel negative22).
Proof.
  split; [reflexivity|]. split.
  - intros fuel. eexists. apply getWorkFormEnternal_negative22.
  - intros fuel (n1 & n2 & a1 & a2 & w1 & w2 & r & s' & Hn & _ & H1 & H2
                 & Hw1 & Hw2 & Hsel & Hfull & _).
    simpl in Hn, Hsel. rewrite getTwoNums_negative22 in Hn.
    rewrite getWorkFormEnternal_negative22 in Hsel.
    injection Hn as <- <- _. injection Hsel as <- _.
    simpl in H1, H2. injection H1 as <-. injection H2 as <-.
    simpl in Hw1, Hw2. injection Hw1 as <-. injection Hw2 as <-.
    discriminate Hfull. unfold at_or_above. simpl. lia.
Qed.

(** Both eternal workers at capacity: nil.  One holds a job: the
    other is chosen.  Two temporary workers, both idle: the second
    sampled is chosen. *)
Example getWorkFormEnternal_full :
  exists s', getWorkFormEnternal 1 full22 = Ret (None, s').
Proof. eexists. reflexivity. Qed.

Example getWorkFormEnternal_busy :
  exists s', getWorkFormEnternal 1 busy22 = Ret (Some 0%nat, s').
Proof. eexists. reflexivity. Qed.

Example getWorkerFromTemp_two :
  exists s', getWorkerFromTemp 1 two_temps = Ret (Some 3%nat, s').
Proof. eexists. reflexivity. Qed.

(** * Further properties *)

(** ** Unregistering, case by case *)

Lemma removeFromParent_loop_done fuel id l r s :
  r <= l -> removeFromParent_loop fuel id l r s = Ret (tt, s).
Proof.
  intros H. destruct fuel; simpl;
    (destruct (l <? r) eqn:E; [apply Z.ltb_lt in E; lia|reflexivity]).
Qed.

Lemma removeFromParent_one fuel id s a w :
  temporaryWorker (pool s) = Some [a] ->
  heap (rt s) !! a = Some w ->
  removeFromParent fuel id s
  = Ret (tt, if ID w =? id
             then upd_pool (set_temporaryWorker (Some [])) s else s).
Proof.
  intros Ht Hw. unfold removeFromParent.
  rewrite (bind_eq _ _ s s s) by reflexivity. rewrite Ht. simpl.
  rewrite (bind_eq _ _ s a s) by reflexivity.
  rewrite (bind_eq _ _ s w s) by (apply deref_Ret; auto).
  destruct (ID w =? id); simpl; [|reflexivity].
  rewrite (bind_eq _ _ s tt (upd_pool (set_temporaryWorker (Some [])) s))
    by reflexivity.
  apply removeFromParent_loop_done. lia.
Qed.

(** X1.  With exactly one temporary worker registered,
    [removeFromParent] returns for every fuel: the registry becomes
    empty (not nil) if the worker has the identity asked for, and the
    state is untouched otherwise. *)
Theorem removeFromParent_single fuel id s a w :
  temporaryWorker (pool s) = Some [a] ->
  heap (rt s) !! a = Some w ->
  removeFromParent fuel id s
  = Ret (tt, if ID w =? id
             then upd_pool (set_temporaryWorker (Some [])) s else s).
Proof. apply removeFromParent_one. Qed.

Lemma removeFromParent_single_witness :
  removeFromParent 0 9 idle1
  = Ret (tt, upd_pool (set_temporaryWorker (Some [])) idle1).
Proof.
  apply (removeFromParent_single 0 9 idle1 2%nat
           (mkWorker 9 1 0 2 TEMPORARY [mkTaskContext 0]));
    reflexivity.
Defined.

(** X2.  With two temporary workers registered, a call for the
    identity of the first entry removes it and keeps the second. *)
Theorem removeFromParent_first_of_two fuel s a b wa :
  temporaryWorker (pool s) = Some [a; b] ->
  heap (rt s) !! a = Some wa ->
  removeFromParent (S fuel) (ID wa) s
  = Ret (tt, upd_pool (set_temporaryWorker (Some [b])) s).
Proof.
  intros Ht Ha. rewrite (removeFromParent_many _ _ _ _ Ht) by (simpl; lia).
  simpl. rewrite (bind_eq _ _ s s s) by reflexivity. rewrite Ht. simpl.
  rewrite (bind_eq _ _ s a s) by reflexivity.
  rewrite (bind_eq _ _ s wa s) by (apply deref_Ret; auto).
  rewrite Z.eqb_refl. reflexivity.
Qed.

Lemma removeFromParent_first_of_two_witness :
  removeFromParent 1 11 two_temps
  = Ret (tt, upd_pool (set_temporaryWorker (Some [3%nat])) two_temps).
Proof.
  apply (removeFromParent_first_of_two 0 two_temps 2%nat 3%nat
           (mkWorker 11 0 0 2 TEMPORARY [])); reflexivity.
Defined.

Lemma removeFromParent_loop_exact fuel id : forall l r s s',
  removeFromParent_loop fuel id l r s = Ret (tt, s') ->
  s' = s \/ removed_one id s s'.
Proof.
  induction fuel as [|fuel IH]; intros l r s s' H; simpl in H;
    destruct (l <? r); try discriminate;
    try (injection H as <-; left; reflexivity).
  apply bind_Ret in H as (s0 & s1 & [= <- <-] & H).
  apply bind_Ret in H as (a & s1 & (Hmid & Ha & ->)%index_Ret & H).
  apply bind_Ret in H as (w & s1 & [Hw ->]%deref_Ret & H).
  destruct (ID w =? id) eqn:E.
  - injection H as <-. right. apply Z.eqb_eq in E.
    exists (Z.to_nat (l + Z.quot (l - r) 2)), a, w.
    repeat (split; [assumption|]).
    rewrite delete_take_drop.
    replace (Z.to_nat (l + Z.quot (l - r) 2 + 1))
      with (S (Z.to_nat (l + Z.quot (l - r) 2))) by lia.
    reflexivity.
  - destruct (ID w >? id); [eauto|]. destruct (ID w <? id); eauto.
Qed.

(** X3.  Whenever [removeFromParent id] returns, either nothing
    changed or exactly one entry left the temporary registry, and that
    entry is a worker whose identity is [id]: no other worker is ever
    unregistered, and heap, runtime and the rest of the pool are as
    before. *)
Theorem removeFromParent_only_id fuel id s s' :
  removeFromParent fuel id s = Ret (tt, s') ->
  s' = s \/ removed_one id s s'.
Proof.
  unfold removeFromParent. intros H.
  apply bind_Ret in H as (s0 & s1 & [= <- <-] & H).
  destruct (temporaryWorker (pool s)) as [ws|] eqn:Hws;
    [|injection H as <-; left; reflexivity].
  destruct (Z.of_nat (length ws) =? 0); [injection H as <-; left; reflexivity|].
  destruct (Z.of_nat (length ws) =? 1) eqn:E1.
  - apply Z.eqb_eq in E1.
    apply bind_Ret in H as (a & s1 & (_ & Ha & ->)%index_Ret & H).
    apply bind_Ret in H as (w & s1 & [Hw ->]%deref_Ret & H).
    destruct (ID w =? id) eqn:E; simpl in H;
      [|injection H as <-; left; reflexivity].
    apply bind_Ret in H as (u & s1 & [= _ <-] & H).
    rewrite removeFromParent_loop_done in H by lia.
    injection H as <-. right. apply Z.eqb_eq in E.
    exists 0%nat, a, w. rewrite Hws. simpl.
    repeat (split; [assumption|]).
    destruct ws as [|x [|y ws]]; simpl in E1; [lia|reflexivity|lia].
  - apply removeFromParent_loop_exact in H. exact H.
Qed.

Lemma removeFromParent_only_id_witness :
  upd_pool (set_temporaryWorker (Some [3%nat])) two_temps = two_temps \/
  removed_one 11 two_temps
    (upd_pool (set_temporaryWorker (Some [3%nat])) two_temps).
Proof.
  apply (removeFromParent_only_id 1 11 two_temps). reflexivity.
Defined.

Lemma bind_cong {A B} (m : M A) (k1 k2 : A -> M B) s :
  (forall a s1, m s = Ret (a, s1) -> k1 a s1 = k2 a s1) ->
  bind m k1 s = bind m k2 s.
Proof. intros H. unfold bind. destruct (m s) as [[a s1]| |]; auto. Qed.

Lemma bind_settles {A B} (m : M A) (k : A -> M B) s :
  m s <> Diverge ->
  (forall a s1, m s = Ret (a, s1) -> k a s1 <> Diverge) ->
  bind m k s <> Diverge.
Proof.
  intros Hm Hk. unfold bind.
  destruct (m s) as [[a s1]| |]; auto; discriminate.
Qed.

Lemma index_settles ws i s : index ws i s <> Diverge.
Proof.
  unfold index. destruct (_ && _); [|discriminate].
  destruct (ws !! _); discriminate.
Qed.

Lemma deref_settles a s : deref a s <> Diverge.
Proof. unfold deref. destruct (_ !! _); discriminate. Qed.

Lemma removeFromParent_loop_S fuel id l r s :
  l < r ->
  removeFromParent_loop (S fuel) id l r s
  = (let mid := l + Z.quot (l - r) 2 in
     do s0 <- get;
     let ws := slice_of (temporaryWorker (pool s0)) in
     do a <- index ws mid;
     do w <- deref a;
     if ID w =? id then
       modify (upd_pool (set_temporaryWorker
         (Some (take (Z.to_nat mid) ws ++ drop (Z.to_nat (mid + 1)) ws))))
     else if ID w >? id then removeFromParent_loop fuel id l (mid - 1)
     else if ID w <? id then removeFromParent_loop fuel id (mid + 1) r
     else removeFromParent_loop fuel id l r) s.
Proof.
  intros H. apply Z.ltb_lt in H. cbn [removeFromParent_loop]. rewrite H.
  reflexivity.
Qed.

Lemma removeFromParent_loop_once fuel id s ws :
  temporaryWorker (pool s) = Some ws ->
  removeFromParent_loop (S fuel) id 0 (Z.of_nat (length ws) - 1) s
  = removeFromParent_loop 1 id 0 (Z.of_nat (length ws) - 1) s /\
  removeFromParent_loop 1 id 0 (Z.of_nat (length ws) - 1) s <> Diverge.
Proof.
  intros Ht. set (r := Z.of_nat (length ws) - 1).
  destruct (Z.le_gt_cases r 0) as [Hr|Hr].
  { rewrite !removeFromParent_loop_done by exact Hr.
    split; [reflexivity|discriminate]. }
  assert (Z.quot (0 - r) 2 <= 0) as Hle.
  { replace (0 - r) with (- r) by lia. rewrite Z.quot_opp_l by lia.
    rewrite Z.quot_div_nonneg by lia.
    assert (0 <= r / 2) by (apply Z.div_pos; lia). lia. }
  assert (Z.quot (0 - r) 2 = 0 -> r = 1) as Hone.
  { intros Hz. replace (0 - r) with (- r) in Hz by lia.
    rewrite Z.quot_opp_l in Hz by lia.
    rewrite Z.quot_div_nonneg in Hz by lia.
    destruct (Z.le_gt_cases 2 r) as [H2|H2]; [|lia].
    assert (1 <= r / 2) by (apply Z.div_le_lower_bound; lia). lia. }
  split.
  - rewrite !removeFromParent_loop_S by lia. cbv zeta.
    apply bind_cong. intros s0 s1 [= <- <-]. rewrite Ht.
    apply bind_cong. intros a s1 (Hmid & _ & ->)%index_Ret.
    apply bind_cong. intros w s1 ->%deref_unchanged.
    destruct (ID w =? id) eqn:E; [reflexivity|].
    assert (Z.quot (0 - r) 2 = 0) as Hz by lia.
    specialize (Hone Hz).
    destruct (ID w >? id) eqn:Eg.
    { rewrite !removeFromParent_loop_done by lia. reflexivity. }
    destruct (ID w <? id) eqn:El.
    { rewrite !removeFromParent_loop_done by lia. reflexivity. }
    apply Z.eqb_neq in E. apply Z.ltb_ge in El.
    rewrite Z.gtb_ltb in Eg. apply Z.ltb_ge in Eg. lia.
  - rewrite removeFromParent_loop_S by lia. cbv zeta.
    apply bind_settles; [discriminate|]. intros s0 s1 [= <- <-].
    apply bind_settles; [apply index_settles|].
    intros a s1 (Hmid & _ & ->)%index_Ret.
    apply bind_settles; [apply deref_settles|]. intros w s2 ->%deref_unchanged.
    destruct (ID w =? id) eqn:E; [cbv [modify]; discriminate|].
    assert (Z.quot (0 - r) 2 = 0) as Hz by lia.
    specialize (Hone Hz).
    destruct (ID w >? id) eqn:Eg.
    { rewrite removeFromParent_loop_done by lia. discriminate. }
    destruct (ID w <? id) eqn:El.
    { rewrite removeFromParent_loop_done by lia. discriminate. }
    apply Z.eqb_neq in E. apply Z.ltb_ge in El.
    rewrite Z.gtb_ltb in Eg. apply Z.ltb_ge in Eg. lia.
Qed.

(** X4.  The search loop of [removeFromParent] never runs its body
    twice: with any fuel at all the call returns or panics, and more
    fuel changes nothing. *)
Theorem removeFromParent_one_round fuel id s :
  removeFromParent (S fuel) id s = removeFromParent 1 id s /\
  removeFromParent 1 id s <> Diverge.
Proof.
  unfold removeFromParent.
  rewrite !(bind_eq _ _ s s s) by reflexivity.
  destruct (temporaryWorker (pool s)) as [ws|] eqn:Ht;
    [|split; [reflexivity|discriminate]].
  destruct (Z.of_nat (length ws) =? 0); [split; [reflexivity|discriminate]|].
  destruct (Z.of_nat (length ws) =? 1) eqn:E1.
  - apply Z.eqb_eq in E1. split.
    + apply bind_cong. intros a s1 _. apply bind_cong. intros w s2 _.
      destruct (negb (ID w =? id)); [reflexivity|].
      apply bind_cong. intros u s3 _.
      rewrite !removeFromParent_loop_done by lia. reflexivity.
    + apply bind_settles; [apply index_settles|]. intros a s1 _.
      apply bind_settles; [apply deref_settles|]. intros w s2 _.
      destruct (negb (ID w =? id)); [discriminate|].
      apply bind_settles; [discriminate|]. intros u s3 _.
      rewrite removeFromParent_loop_done by lia. discriminate.
  - apply removeFromParent_loop_once. exact Ht.
Qed.

(** ** What the selectors leave alone *)

Lemma waited_refl s : waited 0 s s.
Proof. unfold waited, quiet. repeat split; lia. Qed.

Lemma waited_trans t1 t2 s s1 s2 :
  waited t1 s s1 -> waited t2 s1 s2 -> waited (t1 + t2) s s2.
Proof.
  unfold waited, quiet.
  intros ((H1 & H2 & H3 & H4 & H5 & H6 & H7 & H8 & H9 & H10) & Hc)
         ((G1 & G2 & G3 & G4 & G5 & G6 & G7 & G8 & G9 & G10) & Gc).
  repeat split; try congruence. lia.
Qed.

Lemma calm_ret {A} (a : A) : calm (ret a).
Proof. intros s b s' [= _ <-]. apply waited_refl. Qed.

Lemma calm_get : calm get.
Proof. intros s b s' [= _ <-]. apply waited_refl. Qed.

Lemma calm_bind {A B} (m : M A) (k : A -> M B) :
  calm m -> (forall a, calm (k a)) -> calm (bind m k).
Proof.
  intros Hm Hk s b s' H. apply bind_Ret in H as (a & s1 & H1 & H2).
  apply (waited_trans 0 0 s s1 s'); [eapply Hm; exact H1|eapply Hk; exact H2].
Qed.

Lemma calm_unchanged {A} (m : M A) :
  (forall s a s', m s = Ret (a, s') -> s' = s) -> calm m.
Proof. intros Hm s a s' H. rewrite (Hm _ _ _ H). apply waited_refl. Qed.

Lemma calm_panic {A} msg : calm (@panic A msg).
Proof. intros s b s' [=]. Qed.

Lemma calm_diverge {A} : calm (@diverge A).
Proof. intros s b s' [=]. Qed.

Lemma calm_randSource_Intn n : calm (randSource_Intn n).
Proof.
  intros s a s'. unfold randSource_Intn.
  destruct (n <=? 0); [discriminate|]. simpl. intros [= _ <-].
  unfold waited, quiet. simpl. repeat split; lia.
Qed.

Lemma calm_rand_Intn n : calm (rand_Intn n).
Proof.
  intros s a s'. unfold rand_Intn.
  destruct (n <=? 0); [discriminate|]. simpl. intros [= _ <-].
  unfold waited, quiet. simpl. repeat split; lia.
Qed.

Lemma calm_index ws i : calm (index ws i).
Proof. apply calm_unchanged. apply index_unchanged. Qed.

Lemma calm_deref a : calm (deref a).
Proof. apply calm_unchanged. apply deref_unchanged. Qed.

Lemma calm_IsBlocking a : calm (IsBlocking a).
Proof.
  apply calm_unchanged. intros s b s' H.
  apply IsBlocking_Ret in H as (w & _ & _ & ->). reflexivity.
Qed.

Lemma calm_atCapacity a : calm (atCapacity a).
Proof.
  apply calm_unchanged. intros s b s' H.
  apply atCapacity_Ret in H as (w & _ & _ & ->). reflexivity.
Qed.

Lemma calm_LoadInt64_jobNum a : calm (LoadInt64_jobNum a).
Proof.
  apply calm_unchanged. intros s b s' H.
  apply LoadInt64_jobNum_Ret in H as (w & _ & _ & ->). reflexivity.
Qed.

Create HintDb calm.
#[local] Hint Resolve calm_ret calm_get calm_bind calm_panic calm_diverge
  calm_randSource_Intn calm_rand_Intn calm_index calm_deref calm_IsBlocking
  calm_atCapacity calm_LoadInt64_jobNum : calm.
#[local] Hint Extern 2 (calm (if ?b then _ else _)) => destruct b : calm.
#[local] Hint Extern 2 (calm (match ?x with _ => _ end)) => destruct x : calm.

Lemma calm_pickLessLoaded w1 w2 : calm (pickLessLoaded w1 w2).
Proof. unfold pickLessLoaded. auto 10 with calm. Qed.

Lemma calm_resample fuel : forall num num1 num2,
  calm (resample fuel num num1 num2).
Proof. induction fuel as [|fuel IH]; intros; simpl; auto with calm. Qed.

Lemma calm_getTwoWorker fuel num ws : calm (getTwoWorker fuel num ws).
Proof.
  pose proof (calm_resample fuel).
  unfold getTwoWorker, getTwoNums. auto 10 with calm.
Qed.

Lemma calm_getWorkFormEnternal fuel : calm (getWorkFormEnternal fuel).
Proof.
  pose proof (calm_getTwoWorker fuel). pose proof calm_pickLessLoaded.
  unfold getWorkFormEnternal. auto 10 with calm.
Qed.

Lemma calm_getWorkerFromTemp_some fuel (ws : list ptr) :
  calm (if Z.of_nat (length ws) =? 0 then ret None
        else if Z.of_nat (length ws) =? 1
             then do w <- index ws 0;
                  do full <- atCapacity w;
                  do busy <- (if full then ret true else IsBlocking w);
                  if busy then ret None else ret (Some w)
             else do (w1, w2) <- getTwoWorker fuel (Z.of_nat (length ws)) ws;
                  pickLessLoaded w1 w2).
Proof.
  pose proof (calm_getTwoWorker fuel) as H1.
  pose proof calm_pickLessLoaded as H2.
  auto 10 with calm.
Qed.

Lemma calm_getWorkerFromTemp fuel : calm (getWorkerFromTemp fuel).
Proof.
  intros s r s' H. unfold getWorkerFromTemp in H.
  apply bind_Ret in H as (s0 & s1 & [= <- <-] & H).
  destruct (temporaryWorker (pool s)) as [ws|] eqn:Hws.
  - exact (calm_getWorkerFromTemp_some fuel ws s r s' H).
  - injection H as _ <-. unfold waited, quiet. simpl. rewrite Hws.
    repeat split; lia.
Qed.

(** ** What the selectors return *)

Lemma resample_Ret fuel num : forall n1 n2 s m1 m2 s',
  resample fuel num n1 n2 s = Ret ((m1, m2), s') ->
  0 <= n2 < num ->
  m1 = n1 /\ m1 <> m2 /\ 0 <= m2 < num.
Proof.
  induction fuel as [|fuel IH]; intros n1 n2 s m1 m2 s' H Hn2; simpl in H;
    destruct (Z.eqb_spec n1 n2) as [Heq|Hne];
    try discriminate;
    try (injection H as <- <- <-; auto).
  apply bind_Ret in H as (n2' & s1 & Hd & H).
  unfold rand_Intn in Hd. destruct (num <=? 0) eqn:E; [discriminate|].
  injection Hd as <- <-. apply (IH _ _ _ _ _ _ H).
  apply Z.mod_pos_bound. apply Z.leb_gt in E. lia.
Qed.

Lemma getTwoNums_Ret fuel num s n1 n2 s' :
  getTwoNums fuel num s = Ret ((n1, n2), s') ->
  n1 <> n2 /\ 0 <= n1 < num /\ 0 <= n2 < num.
Proof.
  unfold getTwoNums. intros H.
  apply bind_Ret in H as (m1 & s1 & Hd1 & H).
  apply bind_Ret in H as (m2 & s2 & Hd2 & H).
  unfold randSource_Intn in Hd1, Hd2.
  destruct (num <=? 0) eqn:E; [discriminate|]. apply Z.leb_gt in E.
  injection Hd1 as <- <-. injection Hd2 as <- <-.
  apply resample_Ret in H as (-> & Hne & Hr); [|apply Z.mod_pos_bound; lia].
  split; [exact Hne|]. split; [apply Z.mod_pos_bound; lia|exact Hr].
Qed.

Lemma getTwoWorker_Ret fuel num ws s w1 w2 s' :
  getTwoWorker fuel num ws s = Ret ((w1, w2), s') ->
  exists i j : nat,
    i <> j /\ (Z.of_nat i < num) /\ (Z.of_nat j < num) /\
    ws !! i = Some w1 /\ ws !! j = Some w2.
Proof.
  unfold getTwoWorker. intros H.
  apply bind_Ret in H as ([n1 n2] & s1 & Hn & H).
  apply bind_Ret in H as (a1 & s2 & (Hr1 & Ha1 & ->)%index_Ret & H).
  apply bind_Ret in H as (a2 & s2 & (Hr2 & Ha2 & ->)%index_Ret & H).
  injection H as <- <- <-.
  apply getTwoNums_Ret in Hn as (Hne & Hb1 & Hb2).
  exists (Z.to_nat n1), (Z.to_nat n2).
  split; [lia|]. split; [lia|]. split; [lia|]. auto.
Qed.

Lemma getTwoWorker_members fuel num ws s w1 w2 s' :
  getTwoWorker fuel num ws s = Ret ((w1, w2), s') -> w1 ∈ ws /\ w2 ∈ ws.
Proof.
  intros (i & j & _ & _ & _ & Hi & Hj)%getTwoWorker_Ret.
  split; eapply list_elem_of_lookup_2; eauto.
Qed.

(** X5.  Whenever [getTwoWorker] returns, for any fuel and any random
    source, the two workers stand at two distinct positions of the
    registry, both below [num]; so they are distinct workers when no
    entry is repeated. *)
Theorem getTwoWorker_distinct fuel num ws s w1 w2 s' :
  getTwoWorker fuel num ws s = Ret ((w1, w2), s') ->
  exists i j : nat,
    i <> j /\ (Z.of_nat i < num) /\ (Z.of_nat j < num) /\
    ws !! i = Some w1 /\ ws !! j = Some w2 /\
    (NoDup ws -> w1 <> w2).
Proof.
  intros (i & j & Hne & Hi & Hj & Ha1 & Ha2)%getTwoWorker_Ret.
  exists i, j. repeat (split; [assumption|]).
  intros Hnd ->. pose proof (NoDup_lookup _ _ _ _ Hnd Ha1 Ha2). lia.
Qed.

Lemma getTwoWorker_distinct_witness :
  exists i j : nat,
    i <> j /\ (Z.of_nat i < 2) /\ (Z.of_nat j < 2) /\
    [0%nat; 1%nat] !! i = Some 0%nat /\ [0%nat; 1%nat] !! j = Some 1%nat /\
    (NoDup [0%nat; 1%nat] -> 0%nat <> 1%nat).
Proof.
  apply (getTwoWorker_distinct 1 2 [0%nat; 1%nat] pool22 0%nat 1%nat
           (upd_rt (set_randSource (mkRng Z.of_nat 2)) pool22)).
  reflexivity.
Defined.

Lemma pickLessLoaded_live a1 a2 s r s' :
  pickLessLoaded a1 a2 s = Ret (r, s') ->
  exists w1 w2, heap (rt s) !! a1 = Some w1 /\ heap (rt s) !! a2 = Some w2.
Proof.
  unfold pickLessLoaded. intros H.
  apply bind_Ret in H as (f1 & s1 & (w1 & Hw1 & -> & ->)%atCapacity_Ret & H).
  exists w1.
  apply bind_Ret in H as (f & s1 & Hf & H).
  destruct (jobNum w1 =? _).
  - apply atCapacity_Ret in Hf as (w2 & Hw2 & _ & _). eauto.
  - injection Hf as <- <-.
    apply bind_Ret in H as (n1 & s1 & (x & _ & _ & ->)%LoadInt64_jobNum_Ret & H).
    apply bind_Ret in H as (n2 & s1 & (w2 & Hw2 & _ & _)%LoadInt64_jobNum_Ret & H).
    eauto.
Qed.

Lemma pickLessLoaded_admissible ws a1 a2 s r s' :
  a1 ∈ ws -> a2 ∈ ws ->
  pickLessLoaded a1 a2 s = Ret (r, s') ->
  forall a, r = Some a -> admissible s ws a.
Proof.
  intros H1 H2 H a ->.
  destruct (pickLessLoaded_live _ _ _ _ _ H) as (w1 & w2 & Hw1 & Hw2).
  rewrite (pickLessLoaded_Ret a1 a2 w1 w2 s Hw1 Hw2) in H.
  injection H as H _.
  assert (forall x w, x ∈ ws -> heap (rt s) !! x = Some w -> registry_ok s ws ->
                      jobNum w <= WorkerContent (conf (pool s))) as Hle.
  { intros x w Hx Hw Hok. destruct (Hok x Hx) as (w' & Hw' & Hb).
    rewrite Hw in Hw'. injection Hw' as <-. exact Hb. }
  destruct (Z.eqb_spec (jobNum w1) (WorkerContent (conf (pool s))));
    destruct (Z.eqb_spec (jobNum w2) (WorkerContent (conf (pool s))));
    simpl in H; try discriminate;
    destruct (Z.ltb_spec (jobNum w1) (jobNum w2)); injection H as <-;
    (split; [assumption|]); eexists; (split; [eassumption|]); intros Hok;
    pose proof (Hle _ _ H1 Hw1 Hok); pose proof (Hle _ _ H2 Hw2 Hok); lia.
Qed.

Lemma admissible_quiet s s' ws a :
  heap (rt s') = heap (rt s) -> conf (pool s') = conf (pool s) ->
  admissible s ws a -> admissible s' ws a.
Proof.
  unfold admissible, registry_ok. intros -> ->. auto.
Qed.

Lemma getWorkFormEnternal_admissible fuel s r s' :
  getWorkFormEnternal fuel s = Ret (r, s') ->
  forall a, r = Some a -> admissible s (eternalWorker (pool s)) a.
Proof.
  intros H. unfold getWorkFormEnternal in H.
  apply bind_Ret in H as (s0 & s1 & [= <- <-] & H).
  apply bind_Ret in H as ([a1 a2] & s1 & Hg & H).
  destruct (calm_getTwoWorker _ _ _ _ _ _ Hg) as [Hq _].
  apply getTwoWorker_members in Hg as [H1 H2].
  intros a Ha. apply (admissible_quiet s1 s); [symmetry; apply Hq|symmetry; apply Hq|].
  eapply (pickLessLoaded_admissible _ a1 a2);
    [exact H1|exact H2|exact H|exact Ha].
Qed.

(** X6.  Whenever [getWorkFormEnternal] returns, it has written
    nothing (the compare-and-swap stores the value it read) and taken
    no time; its result is nil or a live entry of the eternal registry,
    strictly below capacity when the loads of that registry are within
    the capacity. *)
Theorem getWorkFormEnternal_sound fuel s r s' :
  getWorkFormEnternal fuel s = Ret (r, s') ->
  waited 0 s s' /\
  forall a, r = Some a -> admissible s (eternalWorker (pool s)) a.
Proof.
  intros H. split; [eapply calm_getWorkFormEnternal; eauto|].
  eapply getWorkFormEnternal_admissible; eauto.
Qed.

Lemma getWorkFormEnternal_sound_witness :
  exists r s',
    getWorkFormEnternal 1 busy22 = Ret (r, s') /\ r = Some 0%nat /\
    waited 0 busy22 s' /\
    forall a, r = Some a -> admissible busy22 (eternalWorker (pool busy22)) a.
Proof.
  eexists _, _. split; [reflexivity|]. split; [reflexivity|].
  apply (getWorkFormEnternal_sound 1 busy22). reflexivity.
Defined.

Lemma getWorkerFromTemp_admissible fuel s r s' :
  getWorkerFromTemp fuel s = Ret (r, s') ->
  (slice_of (temporaryWorker (pool s)) = [] -> r = None) /\
  forall a, r = Some a ->
    admissible s (slice_of (temporaryWorker (pool s))) a.
Proof.
  intros H. unfold getWorkerFromTemp in H.
  apply bind_Ret in H as (s0 & s1 & [= <- <-] & H).
  destruct (temporaryWorker (pool s)) as [ws|] eqn:Hws; simpl.
  2: { injection H as <- _. split; [reflexivity|discriminate]. }
  destruct (Z.eqb_spec (Z.of_nat (length ws)) 0) as [E0|E0].
  { injection H as <- _. split; [reflexivity|discriminate]. }
  split; [intros ->; simpl in E0; lia|].
  destruct (Z.eqb_spec (Z.of_nat (length ws)) 1) as [E1|E1].
  - apply bind_Ret in H as (a & s1 & (_ & Ha & ->)%index_Ret & H).
    apply bind_Ret in H as (full & s1 & (w & Hw & -> & ->)%atCapacity_Ret & H).
    apply bind_Ret in H as (busy & s1 & Hb & H).
    assert (busy = false -> jobNum w <> WorkerContent (conf (pool s))) as Hnf.
    { intros ->. destruct (Z.eqb_spec (jobNum w) (WorkerContent (conf (pool s))));
        [discriminate|assumption]. }
    destruct busy; [injection H as <- _; intros x Hx; discriminate Hx|].
    injection H as <- _.
    intros x [= <-].
    assert (a ∈ ws) as Hin by (eapply list_elem_of_lookup_2; eauto).
    split; [exact Hin|]. exists w. split; [exact Hw|].
    intros Hok. destruct (Hok a Hin) as (w' & Hw' & Hle).
    rewrite Hw in Hw'. injection Hw' as <-. specialize (Hnf eq_refl). lia.
  - apply bind_Ret in H as ([a1 a2] & s1 & Hg & H).
    destruct (calm_getTwoWorker _ _ _ _ _ _ Hg) as [Hq _].
    apply getTwoWorker_members in Hg as [H1 H2].
    intros a Ha.
    apply (admissible_quiet s1 s); [symmetry; apply Hq|symmetry; apply Hq|].
    eapply (pickLessLoaded_admissible _ a1 a2);
    [exact H1|exact H2|exact H|exact Ha].
Qed.

(** X7.  Whenever [getWorkerFromTemp] returns, it has written no
    worker and taken no time (a nil registry became an empty one);
    its result is nil or a live entry of the temporary registry,
    strictly below capacity when the loads of that registry are within
    the capacity; with no temporary worker registered the result is
    nil. *)
Theorem getWorkerFromTemp_sound fuel s r s' :
  getWorkerFromTemp fuel s = Ret (r, s') ->
  waited 0 s s' /\
  (slice_of (temporaryWorker (pool s)) = [] -> r = None) /\
  forall a, r = Some a ->
    admissible s (slice_of (temporaryWorker (pool s))) a.
Proof.
  intros H. split; [eapply calm_getWorkerFromTemp; eauto|].
  eapply getWorkerFromTemp_admissible; eauto.
Qed.

Lemma getWorkerFromTemp_sound_witness :
  exists r s',
    getWorkerFromTemp 1 two_temps = Ret (r, s') /\ r = Some 3%nat /\
    waited 0 two_temps s' /\
    (slice_of (temporaryWorker (pool two_temps)) = [] -> r = None) /\
    forall a, r = Some a ->
      admissible two_temps (slice_of (temporaryWorker (pool two_temps))) a.
Proof.
  eexists _, _. split; [reflexivity|]. split; [reflexivity|].
  apply (getWorkerFromTemp_sound 1 two_temps). reflexivity.
Defined.

(** ** The retry loop in general *)

Lemma waited_tick d s : waited d s (upd_rt (fun r => set_clock (clock r + d) r) s).
Proof. unfold waited, quiet. simpl. repeat split. Qed.

Lemma getWorkStep_loop_waited f d : calm f -> forall k w s r s',
  getWorkStep_loop k d f w s = Ret (r, s') ->
  waited (Z.of_nat k * d) s s'.
Proof.
  intros Hf. induction k as [|k IH]; intros w s r s' H.
  - injection H as _ <-. apply waited_refl.
  - cbn [getWorkStep_loop] in H.
    apply bind_Ret in H as (u & s1 & [= _ <-] & H).
    apply bind_Ret in H as (w' & s2 & Hfs & H).
    apply bind_Ret in H as (u' & s3 & Hpeek & H).
    assert (s3 = s2) as ->.
    { destruct w' as [a|]; [|injection Hpeek as _ <-; reflexivity].
      apply bind_Ret in Hpeek as (b & s4 & (x & _ & _ & ->)%IsBlocking_Ret & Hp).
      injection Hp as _ <-. reflexivity. }
    apply IH in H.
    replace (Z.of_nat (S k) * d) with (d + (0 + Z.of_nat k * d)) by lia.
    eapply waited_trans; [apply waited_tick|].
    eapply waited_trans; [eapply Hf; exact Hfs|exact H].
Qed.

Lemma getWorkStep_loop_result f d (P : World -> option ptr -> Prop) :
  (forall s r s', f s = Ret (r, s') -> P s' r) ->
  forall k w s r s',
    getWorkStep_loop k d f w s = Ret (r, s') ->
    (k = 0%nat /\ r = w) \/ P s' r.
Proof.
  intros Hf. induction k as [|k IH]; intros w s r s' H.
  - injection H as <- _. left. auto.
  - cbn [getWorkStep_loop] in H.
    apply bind_Ret in H as (u & s1 & [= _ <-] & H).
    apply bind_Ret in H as (w' & s2 & Hfs & H).
    apply bind_Ret in H as (u' & s3 & Hpeek & H).
    assert (s3 = s2) as ->.
    { destruct w' as [a|]; [|injection Hpeek as _ <-; reflexivity].
      apply bind_Ret in Hpeek as (b & s4 & (x & _ & _ & ->)%IsBlocking_Ret & Hp).
      injection Hp as _ <-. reflexivity. }
    right. destruct (IH _ _ _ _ H) as [Hk|HP]; [|exact HP].
    destruct Hk as [Hk Hr]. subst k r.
    injection H as <-. eapply Hf; eauto.
Qed.

(** X8.  For a selector [f] that is quiet and takes no time,
    [getWorkStep num d f] takes exactly [num * d] seconds ([num] not
    negative) whenever it returns, and is quiet otherwise; without any
    attempt ([num = 0]) it returns nil. *)
Theorem getWorkStep_waits f num d s r s' :
  calm f -> 0 <= num ->
  getWorkStep num d f s = Ret (r, s') ->
  waited (num * d) s s' /\ (num = 0 -> r = None).
Proof.
  intros Hf Hnum H. unfold getWorkStep in H.
  destruct (d <=? 0); [discriminate|]. split.
  - apply (getWorkStep_loop_waited f d Hf) in H.
    rewrite Z2Nat.id in H by exact Hnum. exact H.
  - intros ->. injection H as <- _. reflexivity.
Qed.

Lemma getWorkStep_waits_witness :
  waited (3 * 1) pool22 (upd_rt (set_clock 3) pool22) /\
  (3 = 0 -> @None ptr = None).
Proof.
  apply (getWorkStep_waits flaky 3 1 pool22 None (upd_rt (set_clock 3) pool22)).
  - intros s r s'. unfold flaky. destruct (heap (rt s) !! 0%nat).
    + destruct (clock (rt s) <? 3); intros [= _ <-]; apply waited_refl.
    + intros [= _ <-]. apply waited_refl.
  - lia.
  - reflexivity.
Defined.

(** ** How [DoJob] ends *)

Lemma admissible_mono s (ws ws' : list ptr) a :
  ws ⊆ ws' -> admissible s ws a -> admissible s ws' a.
Proof.
  intros Hsub (Hin & w & Hw & Hlt). split; [auto|].
  exists w. split; [exact Hw|]. intros Hok. apply Hlt.
  intros x Hx. apply Hok. auto.
Qed.

Lemma pick_ok_quiet s s' r : quiet s s' -> pick_ok s r -> pick_ok s' r.
Proof.
  intros (Hh & _ & _ & _ & _ & He & Hc & _ & _ & Ht) Hp a Ha.
  specialize (Hp a Ha). unfold registered in *. rewrite He, Ht.
  apply (admissible_quiet s s'); auto.
Qed.

Lemma getWorkFormEnternal_pick fuel s r s' :
  getWorkFormEnternal fuel s = Ret (r, s') -> waited 0 s s' /\ pick_ok s' r.
Proof.
  intros H. pose proof (calm_getWorkFormEnternal _ _ _ _ H) as Hw.
  split; [exact Hw|]. apply (pick_ok_quiet s s'); [apply Hw|].
  intros a Ha.
  eapply admissible_mono;
    [|eapply getWorkFormEnternal_admissible; [exact H|exact Ha]].
  intros x Hx. apply elem_of_app. auto.
Qed.

Lemma getWorkerFromTemp_pick fuel s r s' :
  getWorkerFromTemp fuel s = Ret (r, s') -> waited 0 s s' /\ pick_ok s' r.
Proof.
  intros H. pose proof (calm_getWorkerFromTemp _ _ _ _ H) as Hw.
  split; [exact Hw|]. apply (pick_ok_quiet s s'); [apply Hw|].
  intros a Ha. apply getWorkerFromTemp_admissible in H as [_ H].
  eapply admissible_mono; [|apply H; exact Ha].
  intros x Hx. apply elem_of_app. auto.
Qed.

Lemma inadmissible_Ret w s b s' :
  inadmissible w s = Ret (b, s') ->
  s' = s /\
  (b = false ->
   exists a x, w = Some a /\ heap (rt s) !! a = Some x /\ Blocking x <> 1).
Proof.
  destruct w as [a|]; simpl.
  - intros (x & Hx & -> & ->)%IsBlocking_Ret. split; [reflexivity|].
    intros Hb. exists a, x. split; [reflexivity|]. split; [exact Hx|].
    apply Z.eqb_neq. exact Hb.
  - intros [= <- <-]. split; [reflexivity|discriminate].
Qed.

Lemma inadmissible_clear a x s :
  heap (rt s) !! a = Some x -> Blocking x <> 1 ->
  inadmissible (Some a) s = Ret (false, s).
Proof.
  intros Hx Hb. simpl.
  replace false with (Blocking x =? 1) by (apply Z.eqb_neq; exact Hb).
  apply IsBlocking_Ret. eauto.
Qed.

Lemma getWorkStep3_pick f :
  (forall s r s', f s = Ret (r, s') -> waited 0 s s' /\ pick_ok s' r) ->
  forall s r s',
    getWorkStep 3 1 f s = Ret (r, s') -> waited 3 s s' /\ pick_ok s' r.
Proof.
  intros Hf s r s' H.
  change (getWorkStep 3 1 f s) with (getWorkStep_loop 3 1 f None s) in H.
  split.
  - apply (getWorkStep_loop_waited f 1) in H; [exact H|].
    intros x y z Hx. apply (Hf _ _ _ Hx).
  - apply (getWorkStep_loop_result f 1 pick_ok) in H.
    + destruct H as [[H _]|H]; [discriminate|exact H].
    + intros x y z Hx. apply (Hf _ _ _ Hx).
Qed.

Lemma DoJob_Ret fuel job s b s' :
  isClose (pool s) <> 1 ->
  DoJob fuel job s = Ret (b, s') -> dispatched job s b s'.
Proof.
  intros Hopen H. unfold DoJob in H.
  rewrite (bind_eq _ _ _ _ _ (isClosed_Ret s)) in H.
  destruct (Z.eqb_spec (isClose (pool s)) 1) as [E|_]; [contradiction|].
  apply bind_Ret in H as (w0 & s1 & Hsel & H).
  apply getWorkFormEnternal_pick in Hsel as [W1 P1].
  apply bind_Ret in H as (again0 & s1' & Hin0 & H).
  destruct (inadmissible_Ret _ _ _ _ Hin0) as [-> G0].
  apply bind_Ret in H as (w1 & s2 & Hph1 & H).
  apply bind_Ret in H as (again1 & s2' & Hin1 & H).
  destruct (inadmissible_Ret _ _ _ _ Hin1) as [-> G1].
  apply bind_Ret in H as (w2 & s3 & Hph2 & H).
  apply bind_Ret in H as (again2 & s3' & Hin2 & H).
  destruct (inadmissible_Ret _ _ _ _ Hin2) as [-> G2].
  apply bind_Ret in H as (w3 & s4 & Hfin & H).
  assert (forall t sx a x,
            waited t s sx -> (t = 0 \/ t = 3 \/ t = 6) ->
            pick_ok sx (Some a) -> heap (rt sx) !! a = Some x ->
            Blocking x <> 1 ->
            (do _ <- deref a; sendJob a job) sx = Ret (b, s') ->
            dispatched job s b s') as Hgood.
  { intros t sx a x W Ht P Hx Hb Hsend.
    apply bind_Ret in Hsend as (y & sy & ->%deref_unchanged & Hsend).
    exists t, sx, a. split; [exact W|]. left.
    split; [exact Ht|]. split; [apply P; reflexivity|].
    split; [eauto|exact Hsend]. }
  destruct again0.
  - apply (getWorkStep3_pick _ (getWorkFormEnternal_pick fuel)) in Hph1
      as [W2 P2].
    pose proof (waited_trans _ _ _ _ _ W1 W2) as W02.
    destruct again1.
    + apply (getWorkStep3_pick _ (getWorkerFromTemp_pick fuel)) in Hph2
        as [W3 P3].
      pose proof (waited_trans _ _ _ _ _ W02 W3) as W03.
      destruct again2.
      * apply bind_Ret in Hfin as (a & s5 & Hnew & [= <- <-]).
        apply bind_Ret in H as (x & s6 & ->%deref_unchanged & H).
        exists 6, s3, a. split; [exact W03|]. right.
        split; [reflexivity|]. exists s5. auto.
      * injection Hfin as <- <-.
        destruct (G2 eq_refl) as (a & x & -> & Hx & Hb).
        apply (Hgood 6 s3 a x); auto.
    + injection Hph2 as <- <-.
      destruct (G1 eq_refl) as (a & x & -> & Hx & Hb).
      rewrite (inadmissible_clear a x s2 Hx Hb) in Hin2.
      injection Hin2 as <-. injection Hfin as <- <-.
      apply (Hgood 3 s2 a x); auto.
  - injection Hph1 as <- <-.
    destruct (G0 eq_refl) as (a & x & -> & Hx & Hb).
    rewrite (inadmissible_clear a x s1 Hx Hb) in Hin1.
    injection Hin1 as <-. injection Hph2 as <- <-.
    rewrite (inadmissible_clear a x s1 Hx Hb) in Hin2.
    injection Hin2 as <-. injection Hfin as <- <-.
    apply (Hgood 0 s1 a x); auto.
Qed.

(** X9.  Whenever [DoJob] returns on an open pool, its result is that
    of [sendJob] on one worker.  Up to that call only draws were taken
    and 0, 3 or 6 seconds spent; the worker is an admissible
    registered worker whose backpressure flag is clear, or else the
    one temporary worker spawned, and a worker is spawned only after
    the full 6 seconds of retries. *)
Theorem DoJob_dispatches fuel job s b s' :
  isClosed s = Ret (false, s) ->
  DoJob fuel job s = Ret (b, s') -> dispatched job s b s'.
Proof.
  rewrite isClosed_Ret. intros [= Hopen]. apply DoJob_Ret.
  apply Z.eqb_neq. exact Hopen.
Qed.

Lemma DoJob_dispatches_witness :
  dispatched (mkTaskContext 0) pool22 true busy22.
Proof.
  apply (DoJob_dispatches 5 (mkTaskContext 0) pool22 true busy22);
    reflexivity.
Defined.

(** X10.  The fast path: on an open pool, when the first selection
    over the eternal registry yields a worker whose backpressure flag
    is clear, [DoJob] is [sendJob] on that worker, at once: no retry,
    no wait, no temporary worker. *)
Theorem DoJob_fast_path fuel job s a x s1 :
  isClosed s = Ret (false, s) ->
  getWorkFormEnternal fuel s = Ret (Some a, s1) ->
  heap (rt s1) !! a = Some x -> Blocking x <> 1 ->
  DoJob fuel job s = sendJob a job s1.
Proof.
  rewrite isClosed_Ret. intros [= Hopen] Hsel Hx Hb. unfold DoJob.
  rewrite (bind_eq _ _ _ _ _ (isClosed_Ret s)), Hopen.
  rewrite (bind_eq _ _ _ _ _ Hsel).
  rewrite (bind_eq _ _ _ _ _ (inadmissible_clear a x s1 Hx Hb)).
  rewrite (bind_eq _ _ s1 (Some a) s1) by reflexivity.
  rewrite (bind_eq _ _ _ _ _ (inadmissible_clear a x s1 Hx Hb)).
  rewrite (bind_eq _ _ s1 (Some a) s1) by reflexivity.
  rewrite (bind_eq _ _ _ _ _ (inadmissible_clear a x s1 Hx Hb)).
  rewrite (bind_eq _ _ s1 (Some a) s1) by reflexivity.
  rewrite (bind_eq _ _ s1 x s1) by (apply deref_Ret; auto).
  reflexivity.
Qed.

Lemma DoJob_fast_path_witness :
  DoJob 5 (mkTaskContext 0) pool22
  = sendJob 1%nat (mkTaskContext 0)
      (upd_rt (set_randSource (mkRng Z.of_nat 2)) pool22).
Proof.
  apply (DoJob_fast_path 5 (mkTaskContext 0) pool22 1%nat
           (mkWorker 2 0 0 2 ETERNAL [])); try reflexivity.
  simpl. lia.
Defined.

(** ** What [DoJob] leaves alone *)

Lemma same_workers_refl s : same_workers s s.
Proof. intros a w Hw. eauto. Qed.

Lemma same_workers_trans s1 s2 s3 :
  same_workers s1 s2 -> same_workers s2 s3 -> same_workers s1 s3.
Proof.
  intros H12 H23 a w Hw.
  destruct (H12 a w Hw) as (w2 & Hw2 & E1 & E2 & E3).
  destruct (H23 a w2 Hw2) as (w3 & Hw3 & F1 & F2 & F3).
  exists w3. repeat split; congruence.
Qed.

Lemma same_workers_heap s s' :
  heap (rt s') = heap (rt s) -> same_workers s s'.
Proof. intros H a w Hw. rewrite H. eauto. Qed.

Lemma same_workers_store s a w w' :
  heap (rt s) !! a = Some w ->
  ID w' = ID w -> kind w' = kind w -> capacity w' = capacity w ->
  same_workers s (upd_rt (fun r => set_heap (<[a := w']> (heap r)) r) s).
Proof.
  intros Hw E1 E2 E3 b x Hx. simpl.
  destruct (decide (b = a)) as [->|Hne].
  - exists w'. split.
    + apply list_lookup_insert_eq. eapply lookup_lt_Some; eauto.
    + assert (x = w) as -> by congruence. auto.
  - exists x. rewrite list_lookup_insert_ne by auto. auto.
Qed.

Lemma sendJob_Ret a job s b s' :
  sendJob a job s = Ret (b, s') ->
  exists w w',
    heap (rt s) !! a = Some w /\
    ID w' = ID w /\ kind w' = kind w /\ capacity w' = capacity w /\
    b = (Z.of_nat (length (queue w)) <? capacity w) /\
    s' = upd_rt (fun r => set_heap (<[a := w']> (heap r)) r) s.
Proof.
  unfold sendJob. intros H.
  apply bind_Ret in H as (w & s1 & [Hw ->]%deref_Ret & H).
  exists w. destruct (Z.of_nat (length (queue w)) <? capacity w);
    injection H as <- <-.
  - exists (set_queue (queue w ++ [job]) (set_jobNum (jobNum w + 1) w)).
    repeat split. exact Hw.
  - exists (set_Blocking 1 w). repeat split. exact Hw.
Qed.

Lemma touched_refl s : touched s s.
Proof.
  repeat (split; [reflexivity|]). split; [apply same_workers_refl|].
  left. auto.
Qed.

Lemma sendJob_touched a job s b s' :
  sendJob a job s = Ret (b, s') ->
  pool s' = pool s /\ wg (rt s') = wg (rt s) /\
  length (heap (rt s')) = length (heap (rt s)) /\
  same_workers s s' /\
  forall x, heap (rt s) !! a = Some x ->
    exists x', heap (rt s') !! a = Some x' /\
               kind x' = kind x /\ capacity x' = capacity x.
Proof.
  intros (w & w' & Hw & E1 & E2 & E3 & _ & ->)%sendJob_Ret.
  split; [reflexivity|]. split; [reflexivity|].
  split; [apply length_insert|].
  split; [apply (same_workers_store s a w w'); auto|].
  intros x Hx. exists w'. assert (x = w) as -> by congruence.
  split; [|auto]. apply list_lookup_insert_eq. eapply lookup_lt_Some; eauto.
Qed.

Lemma newTempWorker_touched s a s' :
  newTempWorker s = Ret (a, s') ->
  a = length (heap (rt s)) /\
  eternalWorker (pool s') = eternalWorker (pool s) /\
  conf (pool s') = conf (pool s) /\
  isClose (pool s') = isClose (pool s) /\
  cancelled (pool s') = cancelled (pool s) /\
  temporaryWorker (pool s')
  = Some (slice_of (temporaryWorker (pool s)) ++ [a]) /\
  wg (rt s') = wg (rt s) + 1 /\
  heap (rt s')
  = heap (rt s) ++ [mkWorker (draws (uuid (rt s)) (pos (uuid (rt s)))) 0 0
                      (WorkerContent (conf (pool s))) TEMPORARY []].
Proof. intros [= <- <-]. repeat split. Qed.

Lemma DoJob_touched fuel job s b s' :
  DoJob fuel job s = Ret (b, s') -> touched s s'.
Proof.
  intros H. destruct (Z.eq_dec (isClose (pool s)) 1) as [Hc|Ho].
  { rewrite DoJob_closed in H by exact Hc. injection H as _ <-.
    apply touched_refl. }
  apply DoJob_Ret in H as (t & s1 & a & [Hq _] & H); [|exact Ho].
  destruct Hq as (Hh & Hwg & Hu & _ & _ & He & Hcf & Hi & Hca & Ht).
  destruct H as [(_ & _ & _ & Hsend)|(_ & s2 & Hnew & Hsend)].
  - apply sendJob_touched in Hsend as (Hp & Hwg' & Hlen & Hsw & _).
    unfold touched. rewrite Hp. repeat (split; [assumption|]). split.
    + eapply same_workers_trans; [apply same_workers_heap; exact Hh|exact Hsw].
    + left. rewrite Hlen, Hh, Hwg', Hwg. auto.
  - apply newTempWorker_touched in Hnew
      as (-> & He2 & Hcf2 & Hi2 & Hca2 & Ht2 & Hwg2 & Hh2).
    apply sendJob_touched in Hsend as (Hp & Hwg' & Hlen & Hsw & Hnew).
    unfold touched. rewrite Hp. split; [congruence|]. split; [congruence|].
    split; [congruence|]. split; [congruence|]. split.
    + eapply same_workers_trans; [|exact Hsw].
      intros x y Hy. exists y. rewrite Hh2, Hh.
      split; [apply lookup_app_l_Some; exact Hy|auto].
    + right. rewrite Hlen, Hh2, length_app, Hh, Hwg', Hwg2, Hwg, Ht2, Ht, Hh.
      simpl. split; [lia|]. split; [reflexivity|]. split; [reflexivity|].
      destruct (Hnew (mkWorker (draws (uuid (rt s1)) (pos (uuid (rt s1)))) 0 0
                        (WorkerContent (conf (pool s1))) TEMPORARY []))
        as (x' & Hx' & Hk & Hcap).
      { rewrite Hh2. apply list_lookup_middle. reflexivity. }
      exists x'. rewrite <- Hh. split; [exact Hx'|].
      simpl in Hk, Hcap. rewrite <- Hcf. auto.
Qed.

(** X11.  Whenever [DoJob] returns, on any pool, it has not changed
    the eternal registry, the configuration, the open/closed flag or
    the cancellation, nor the identity, kind or capacity of any worker;
    it has spawned at most one worker, and that one is temporary, has
    the configured capacity, is registered last in the temporary
    registry and is counted once in the wait group.  ([sendJob] as
    modelled writes the queue and the load, or the flag, of its
    worker, nothing else.) *)
Theorem DoJob_footprint fuel job s b s' :
  DoJob fuel job s = Ret (b, s') -> touched s s'.
Proof. apply DoJob_touched. Qed.

Lemma DoJob_footprint_witness : touched pool22 busy22.
Proof.
  apply (DoJob_footprint 5 (mkTaskContext 0) pool22 true busy22).
  reflexivity.
Defined.

(** ** Spawning, then unregistering *)

(** X15.  On a pool without temporary workers, the worker
    [newTempWorker] spawns becomes the only temporary entry, and its
    own [removeFromParent] call (with its identity) empties the
    registry again; heap and eternal registry are not concerned. *)
Theorem spawn_then_unregister fuel s :
  slice_of (temporaryWorker (pool s)) = [] ->
  exists a s1 w,
    newTempWorker s = Ret (a, s1) /\
    heap (rt s1) !! a = Some w /\
    temporaryWorker (pool s1) = Some [a] /\
    removeFromParent fuel (ID w) s1
    = Ret (tt, upd_pool (set_temporaryWorker (Some [])) s1).
Proof.
  intros Ht.
  destruct (newTempWorker s) as [[a s1]| |] eqn:Hnew; try discriminate.
  pose proof (newTempWorker_touched _ _ _ Hnew)
    as (-> & _ & _ & _ & _ & Ht1 & _ & Hh1).
  rewrite Ht in Ht1. simpl in Ht1.
  eexists _, s1, _. split; [reflexivity|].
  split; [rewrite Hh1; apply list_lookup_middle; reflexivity|].
  split; [exact Ht1|].
  erewrite removeFromParent_one;
    [|exact Ht1|rewrite Hh1; apply list_lookup_middle; reflexivity].
  rewrite Z.eqb_refl. reflexivity.
Qed.

Lemma spawn_then_unregister_witness :
  exists a s1 w,
    newTempWorker pool22 = Ret (a, s1) /\
    heap (rt s1) !! a = Some w /\
    temporaryWorker (pool s1) = Some [a] /\
    removeFromParent 0 (ID w) s1
    = Ret (tt, upd_pool (set_temporaryWorker (Some [])) s1).
Proof. apply (spawn_then_unregister 0 pool22). reflexivity. Defined.

(** ** Sampling needs two *)

Lemma resample_one fuel : forall s, resample fuel 1 0 0 s = Diverge.
Proof.
  induction fuel as [|fuel IH]; intros s; [reflexivity|].
  simpl. rewrite (bind_eq _ _ _ _ _ (rand_Intn_Ret 1 s ltac:(lia))).
  rewrite Z.mod_1_r. apply IH.
Qed.

(** X16.  The two-sample draw is not defined below two: for a size
    that is not positive [getTwoNums] panics in [Intn], and for size 1
    its loop never ends, whatever the random sources yield. *)
Theorem getTwoNums_needs_two fuel s :
  (forall num, num <= 0 ->
     getTwoNums fuel num s = Panic "invalid argument to Intn") /\
  getTwoNums fuel 1 s = Diverge.
Proof.
  split.
  - intros num Hnum. unfold getTwoNums, bind, randSource_Intn.
    apply Z.leb_le in Hnum. rewrite Hnum. reflexivity.
  - unfold getTwoNums.
    rewrite (bind_eq _ _ _ _ _ (randSource_Intn_Ret 1 _ ltac:(lia))).
    rewrite (bind_eq _ _ _ _ _ (randSource_Intn_Ret 1 _ ltac:(lia))).
    rewrite !Z.mod_1_r. apply resample_one.
Qed.

(** * Interleaved runs *)

(** ** Schedules *)

Lemma play_steps es : forall c c', play es c = Some c' -> rtc step c c'.
Proof.
  induction es as [|e es IH]; intros c c' H; simpl in H.
  - injection H as <-. apply rtc_refl.
  - destruct (occur e c) as [c1|] eqn:He; [|discriminate].
    eapply rtc_l; [exists e; exact He|]. apply IH. exact H.
Qed.

Lemma running_steps d c r cfg cfg' :
  running d c r cfg -> rtc step cfg cfg' -> running d c r cfg'.
Proof.
  intros Hr Hs. induction Hs as [|x y z Hxy _ IH]; [exact Hr|].
  apply IH. eapply run_step; eauto.
Qed.

(** ** Actions that keep a property *)

Section Sat.
Context (I : World -> Prop).

Lemma sat_pbind {A B} (p : prog A) (f : A -> prog B) (Q : A -> Prop)
    (R : B -> Prop) :
  sat I p Q -> (forall a, Q a -> sat I (f a) R) -> sat I (pbind p f) R.
Proof.
  intros Hp Hf. induction p as [a|X m k IH|k IH|k IH]; simpl in *; auto.
  intros s x s' HI Hm. destruct (Hp s x s' HI Hm) as [HI' Hk]. auto.
Qed.

Lemma sat_call {A B} (p : prog A) (f : A -> prog B) (R : B -> Prop) :
  sat I p (fun _ => True) -> (forall a, sat I (f a) R) ->
  sat I (pbind p f) R.
Proof. intros Hp Hf. eapply sat_pbind; eauto. Qed.

Lemma sat_atom {A X} (m : M X) (k : X -> prog A) (Q : A -> Prop) :
  stable I m -> (forall x, sat I (k x) Q) -> sat I (Act m k) Q.
Proof. intros Hm Hk s x s' HI H. split; [eapply Hm; eauto|apply Hk]. Qed.

Lemma sat_Lock {A} (k : prog A) (Q : A -> Prop) :
  sat I k Q -> sat I (Lock k) Q.
Proof. intros H. exact H. Qed.

Lemma sat_Unlock {A} (k : prog A) (Q : A -> Prop) :
  sat I k Q -> sat I (Unlock k) Q.
Proof. intros H. exact H. Qed.

Lemma sat_thread {A} (p : prog A) :
  sat I p (fun _ => True) -> sat I (thread p) (fun _ => True).
Proof.
  intros H. unfold thread. simple apply sat_call; [exact H|].
  intros a. exact Logic.I.
Qed.

Lemma stable_read {X} (f : World -> X) : stable I (read f).
Proof. intros s x s' [= _ <-]. auto. Qed.
End Sat.

(** ** The invariant *)

Lemma Inv_frame cf base s s' :
  conf (pool s') = conf (pool s) ->
  eternalWorker (pool s') = eternalWorker (pool s) ->
  heap (rt s') = heap (rt s) ->
  Inv cf base s -> Inv cf base s'.
Proof. unfold Inv, eternal_ok. intros -> -> ->. auto. Qed.

(** Writing a worker that keeps identity, kind and capacity, and is
    bounded if the one it replaces was. *)
Lemma Inv_store cf base a w w' s :
  heap (rt s) !! a = Some w ->
  ID w' = ID w -> kind w' = kind w -> capacity w' = capacity w ->
  (0 <= WorkerContent cf -> (base <= a)%nat ->
   bounded (WorkerContent cf) w -> bounded (WorkerContent cf) w') ->
  Inv cf base s ->
  Inv cf base (upd_rt (fun r => set_heap (<[a := w']> (heap r)) r) s).
Proof.
  intros Hw HID Hkind Hcap Hb [(Hc & He & Hk) Hr]. split.
  - split; [exact Hc|]. split; [exact He|]. intros k Hlt.
    destruct (Hk k Hlt) as (x & Hx & H1 & H2 & H3). simpl.
    destruct (decide ((base + k)%nat = a)) as [Heq|Hne].
    + subst a. assert (x = w) as -> by congruence.
      exists w'. rewrite list_lookup_insert_eq by (eapply lookup_lt_Some; eauto).
      split; [reflexivity|]. rewrite HID, Hkind, Hcap. auto.
    + exists x. rewrite list_lookup_insert_ne by auto. auto.
  - intros H0 b x Hge Hx. simpl in Hx.
    destruct (decide (b = a)) as [Heq|Hne]; [subst b|].
    + rewrite list_lookup_insert_eq in Hx by (eapply lookup_lt_Some; eauto).
      injection Hx as <-. eauto.
    + rewrite list_lookup_insert_ne in Hx by auto. eauto.
Qed.

(** Allocating a worker of the configured capacity with no job. *)
Lemma Inv_alloc cf base id k s :
  Inv cf base s ->
  Inv cf base
    (upd_rt (fun r => set_heap (heap r ++ [mkWorker id 0 0 (WorkerContent cf) k []]) r) s).
Proof.
  intros [(Hc & He & Hk) Hr]. split.
  - split; [exact Hc|]. split; [exact He|]. intros j Hlt.
    destruct (Hk j Hlt) as (x & Hx & H). exists x. simpl.
    rewrite lookup_app_l by (eapply lookup_lt_Some; eauto). auto.
  - intros H0 b x Hge Hx. simpl in Hx.
    apply lookup_app_Some in Hx as [Hx|[_ Hx]]; [eauto|].
    apply list_lookup_singleton_Some in Hx as [_ <-].
    unfold bounded. simpl. lia.
Qed.

Lemma finishJob_Inv cf base a s s' :
  finishJob a s = Some s' -> Inv cf base s -> Inv cf base s'.
Proof.
  unfold finishJob. destruct (heap (rt s) !! a) as [w|] eqn:Hw; [|discriminate].
  destruct (queue w) as [|j q] eqn:Hq; [discriminate|].
  intros [= <-]. apply (Inv_store cf base a w); auto.
  - destruct (_ <? _); reflexivity.
  - destruct (_ <? _); reflexivity.
  - destruct (_ <? _); reflexivity.
  - intros _ _ [Hb Hcap]. rewrite Hq in Hb. simpl in Hb.
    unfold bounded. destruct (_ <? _); simpl; lia.
Qed.

Create HintDb stable.
Create HintDb sat.

Section Invariant.
Context (cf : TaskConf) (base : nat).
Abbreviation keeps := (stable (Inv cf base)).
Abbreviation safe := (fun p => sat (Inv cf base) p (fun _ => True)).

Lemma keeps_tick d : keeps (tick d).
Proof. apply stable_modify. intros s. apply Inv_frame; reflexivity. Qed.

Lemma keeps_wg_Add d : keeps (wg_Add d).
Proof. apply stable_modify. intros s. apply Inv_frame; reflexivity. Qed.

Lemma keeps_AddInt32_isClose d : keeps (AddInt32_isClose d).
Proof. apply stable_modify. intros s. apply Inv_frame; reflexivity. Qed.

Lemma keeps_cancel : keeps cancel.
Proof. apply stable_modify. intros s. apply Inv_frame; reflexivity. Qed.

Lemma keeps_register (f : World -> option (list ptr)) :
  keeps (modify (fun s => upd_pool (set_temporaryWorker (f s)) s)).
Proof. apply stable_modify. intros s. apply Inv_frame; reflexivity. Qed.

Lemma keeps_randSource_Intn n : keeps (randSource_Intn n).
Proof.
  intros s a s'. unfold randSource_Intn.
  destruct (n <=? 0); [discriminate|]. simpl. intros [= _ <-].
  apply Inv_frame; reflexivity.
Qed.

Lemma keeps_rand_Intn n : keeps (rand_Intn n).
Proof.
  intros s a s'. unfold rand_Intn.
  destruct (n <=? 0); [discriminate|]. simpl. intros [= _ <-].
  apply Inv_frame; reflexivity.
Qed.

Lemma keeps_GetUUID : keeps GetUUID.
Proof.
  intros s a s'. unfold GetUUID. intros [= _ <-].
  apply Inv_frame; reflexivity.
Qed.

Lemma keeps_index ws i : keeps (index ws i).
Proof. apply stable_unchanged. apply index_unchanged. Qed.

Lemma keeps_deref a : keeps (deref a).
Proof. apply stable_unchanged. apply deref_unchanged. Qed.

Lemma keeps_IsBlocking a : keeps (IsBlocking a).
Proof.
  apply stable_unchanged. intros s b s' H.
  apply IsBlocking_Ret in H as (w & _ & _ & ->). reflexivity.
Qed.

Lemma keeps_LoadInt64_jobNum a : keeps (LoadInt64_jobNum a).
Proof.
  apply stable_unchanged. intros s b s' H.
  apply LoadInt64_jobNum_Ret in H as (w & _ & _ & ->). reflexivity.
Qed.

Lemma keeps_isClosed : keeps isClosed.
Proof. apply stable_unchanged. intros s b s' [= _ <-]. reflexivity. Qed.

Lemma keeps_temporary_at i : keeps (temporary_at i).
Proof.
  apply stable_unchanged. intros s w s' H. unfold temporary_at in H.
  apply bind_Ret in H as (s0 & s1 & [= <- <-] & H).
  apply bind_Ret in H as (a & s1 & ->%index_unchanged & ->%deref_unchanged).
  reflexivity.
Qed.

Lemma keeps_sendJob a job : keeps (sendJob a job).
Proof.
  intros s b s' H HI. unfold sendJob in H.
  apply bind_Ret in H as (w & s1 & [Hw ->]%deref_Ret & H).
  destruct (Z.of_nat (length (queue w)) <? capacity w) eqn:Hlt;
    injection H as _ <-; apply (Inv_store cf base a w); auto.
  intros _ _ [Hb Hcap]. apply Z.ltb_lt in Hlt.
  unfold bounded. simpl. rewrite length_app. simpl. lia.
Qed.

Hint Resolve stable_ret stable_get stable_panic stable_diverge stable_read
  keeps_tick keeps_wg_Add keeps_AddInt32_isClose keeps_cancel
  keeps_randSource_Intn keeps_rand_Intn keeps_GetUUID keeps_index
  keeps_deref keeps_IsBlocking keeps_LoadInt64_jobNum keeps_isClosed
  keeps_temporary_at keeps_sendJob : stable.

Hint Resolve sat_call sat_thread : sat.
Hint Extern 1 (sat _ (Done _) _) => exact Logic.I : sat.
Hint Extern 1 (sat _ (Act _ _) _) =>
  simple apply sat_atom; [solve [auto with stable]|intros ?] : sat.
Hint Extern 1 (sat _ (Lock _) _) => simple apply sat_Lock : sat.
Hint Extern 1 (sat _ (Unlock _) _) => simple apply sat_Unlock : sat.
Hint Extern 2 (sat _ (if ?b then _ else _) _) => destruct b : sat.
Hint Extern 2 (sat _ (match ?x with _ => _ end) _) => destruct x : sat.

Lemma safe_isClosed : safe Fine.isClosed.
Proof. unfold Fine.isClosed. auto with sat. Qed.

Lemma safe_Close : safe Fine.Close.
Proof. pose proof safe_isClosed. unfold Fine.Close. auto 10 with sat. Qed.

Lemma safe_resample fuel : forall num num1 num2,
  safe (Fine.resample fuel num num1 num2).
Proof.
  induction fuel as [|fuel IH]; intros; simpl; auto 10 with sat.
Qed.

Lemma safe_getTwoWorker fuel num ws : safe (Fine.getTwoWorker fuel num ws).
Proof.
  pose proof (safe_resample fuel).
  unfold Fine.getTwoWorker, Fine.getTwoNums.
  simple apply sat_call; [auto 10 with sat|]. intros [n1 n2]. auto 10 with sat.
Qed.

(** The swap of the selectors: the value it writes was read from the
    same worker before; another goroutine may have raised the counter
    since, so the swap can lower it, but it cannot raise it. *)
Lemma safe_atCapacity a : safe (Fine.atCapacity a).
Proof.
  unfold Fine.atCapacity. intros s old s1 [He Hb] [= <- <-].
  split; [exact (conj He Hb)|].
  intros s2 new s3 [He' Hb'] Hload.
  apply LoadInt64_jobNum_Ret in Hload as (w0 & Hw0 & -> & ->).
  split; [exact (conj He' Hb')|].
  intros s4 b s5 HI Hcas. split; [|exact Logic.I].
  unfold CompareAndSwapInt64_jobNum in Hcas.
  apply bind_Ret in Hcas as (w & s6 & [Hw ->]%deref_Ret & Hcas).
  destruct (jobNum w =? WorkerContent (conf (pool s))) eqn:Heq.
  - apply bind_Ret in Hcas as ([] & s6 & [= <-] & [= _ <-]).
    apply (Inv_store cf base a w); auto.
    intros H0 Hge [Hbw Hcw]. apply Z.eqb_eq in Heq.
    destruct He as (Hc & _). rewrite Hc in Heq.
    destruct (Hb' H0 a w0 Hge Hw0) as [Hb0 Hc0].
    unfold bounded. simpl. lia.
  - injection Hcas as _ <-. exact HI.
Qed.

Lemma safe_pickLessLoaded w1 w2 : safe (Fine.pickLessLoaded w1 w2).
Proof.
  pose proof safe_atCapacity. unfold Fine.pickLessLoaded.
  auto 20 with sat.
Qed.

Lemma safe_getWorkFormEnternal fuel : safe (Fine.getWorkFormEnternal fuel).
Proof.
  pose proof (safe_getTwoWorker fuel). pose proof safe_pickLessLoaded.
  unfold Fine.getWorkFormEnternal.
  simple apply sat_atom; [auto with stable|]. intros num.
  simple apply sat_atom; [auto with stable|]. intros ws.
  simple apply sat_call; [auto|]. intros [a1 a2]. auto.
Qed.

Lemma safe_getWorkerFromTemp fuel : safe (Fine.getWorkerFromTemp fuel).
Proof.
  pose proof (safe_getTwoWorker fuel). pose proof safe_pickLessLoaded.
  pose proof safe_atCapacity. pose proof (keeps_register (fun _ => Some [])).
  unfold Fine.getWorkerFromTemp.
  simple apply sat_atom; [auto with stable|]. intros [t|].
  2: { simple apply sat_atom; [assumption|]. intros _. exact Logic.I. }
  simple apply sat_atom; [auto with stable|]. intros len.
  destruct (len =? 0); [exact Logic.I|]. simple apply sat_Lock.
  simple apply sat_atom; [auto with stable|]. intros len1.
  destruct (len1 =? 1).
  - simple apply sat_atom; [auto with stable|]. intros ws.
    simple apply sat_atom; [auto with stable|]. intros w.
    simple apply sat_call; [auto|]. intros full.
    simple apply sat_call; [destruct full; auto with sat|]. intros busy.
    destruct busy; exact Logic.I.
  - simple apply sat_atom; [auto with stable|]. intros len2.
    simple apply sat_atom; [auto with stable|]. intros ws.
    simple apply sat_call; [auto|]. intros [a1 a2].
    simple apply sat_call; [auto|]. intros r. exact Logic.I.
Qed.

Lemma safe_getWorkStep_loop f d k : safe f ->
  forall w, safe (Fine.getWorkStep_loop k d f w).
Proof.
  intros Hf. induction k as [|k IH]; intros w; simpl; [exact Logic.I|].
  simple apply sat_atom; [auto with stable|]. intros _.
  simple apply sat_call; [exact Hf|]. intros w'.
  simple apply sat_call; [destruct w'; auto with sat|]. intros _. apply IH.
Qed.

Lemma safe_getWorkStep f num d : safe f -> safe (Fine.getWorkStep num d f).
Proof.
  intros Hf. unfold Fine.getWorkStep. destruct (d <=? 0).
  - auto with sat.
  - apply safe_getWorkStep_loop. exact Hf.
Qed.

Lemma safe_newTempWorker : safe Fine.newTempWorker.
Proof.
  unfold Fine.newTempWorker.
  simple apply sat_atom; [auto with stable|]. intros id.
  intros s cap s1 HI [= <- <-]. split; [exact HI|].
  assert (conf (pool s) = cf) as -> by apply HI.
  intros s2 w s3 HI2 [= _ <-]. split; [apply Inv_alloc; exact HI2|].
  simple apply sat_atom; [auto with stable|]. intros _. simple apply sat_Lock.
  simple apply sat_atom; [|intros _; exact Logic.I].
  apply stable_modify. intros s4. apply Inv_frame; reflexivity.
Qed.

Lemma safe_removeFromParent_loop fuel id : forall l r,
  safe (Fine.removeFromParent_loop fuel id l r).
Proof.
  induction fuel as [|fuel IH]; intros l r; simpl;
    destruct (l <? r); try exact Logic.I; [auto with sat|].
  simple apply sat_atom; [auto with stable|]. intros w.
  destruct (ID w =? id).
  { simple apply sat_atom; [|intros _; exact Logic.I].
    apply stable_modify. intros s. apply Inv_frame; reflexivity. }
  simple apply sat_atom; [auto with stable|]. intros w1.
  destruct (ID w1 >? id); [apply IH|].
  simple apply sat_atom; [auto with stable|]. intros w2.
  destruct (ID w2 <? id); apply IH.
Qed.

Lemma safe_removeFromParent fuel id : safe (Fine.removeFromParent fuel id).
Proof.
  pose proof (safe_removeFromParent_loop fuel id) as Hloop.
  unfold Fine.removeFromParent.
  simple apply sat_atom; [auto with stable|]. intros [t|]; [|exact Logic.I].
  simple apply sat_atom; [auto with stable|]. intros len.
  destruct (len =? 0); [exact Logic.I|]. simple apply sat_Lock.
  simple apply sat_atom; [auto with stable|]. intros lenTemp.
  assert (safe (call _ <- Fine.removeFromParent_loop fuel id 0 (lenTemp - 1);
                Unlock (Done tt))) as Hsearch.
  { simple apply sat_call; [apply Hloop|]. intros _. exact Logic.I. }
  cbv zeta. destruct (lenTemp =? 1); [|exact Hsearch].
  simple apply sat_atom; [auto with stable|]. intros w.
  destruct (negb (ID w =? id)); [exact Logic.I|].
  simple apply sat_atom; [|intros _; exact Hsearch].
  apply stable_modify. intros s. apply Inv_frame; reflexivity.
Qed.

Lemma safe_inadmissible w : safe (Fine.inadmissible w).
Proof. destruct w; unfold Fine.inadmissible; auto with sat. Qed.

Lemma safe_DoJob fuel job : safe (Fine.DoJob fuel job).
Proof.
  pose proof (safe_getWorkFormEnternal fuel) as H1.
  pose proof (safe_getWorkerFromTemp fuel) as H2.
  pose proof (safe_getWorkStep _ 3 1 H1) as H3.
  pose proof (safe_getWorkStep _ 3 1 H2) as H4.
  pose proof safe_newTempWorker as H5. pose proof safe_inadmissible as H6.
  unfold Fine.DoJob.
  simple apply sat_call; [apply safe_isClosed|]. intros [|]; [exact Logic.I|].
  simple apply sat_call; [exact H1|]. intros w0.
  simple apply sat_call; [apply H6|]. intros again0.
  simple apply sat_call; [destruct again0; [exact H3|exact Logic.I]|]. intros w1.
  simple apply sat_call; [apply H6|]. intros again1.
  simple apply sat_call; [destruct again1; [exact H4|exact Logic.I]|]. intros w2.
  simple apply sat_call; [apply H6|]. intros again2.
  simple apply sat_call.
  { destruct again2; [|exact Logic.I].
    simple apply sat_call; [exact H5|]. intros a. exact Logic.I. }
  intros [a|]; auto 10 with sat.
Qed.

(** Every event keeps the invariant, and what the calls in progress
    have left to do keeps it. *)
Lemma occur_Inv e c c' :
  occur e c = Some c' ->
  Inv cf base (world c) -> Forall safe (threads c) ->
  Inv cf base (world c') /\ Forall safe (threads c').
Proof.
  intros He HI Hts. destruct e as [i|fuel job| |a|fuel a]; simpl in He.
  - unfold fire in He. destruct (threads c !! i) as [p|] eqn:Hp; [|discriminate].
    pose proof (Forall_lookup_1 _ _ _ _ Hts Hp) as Hsafe.
    destruct p as [x|X m k|k|k]; try discriminate.
    + destruct (m (world c)) as [[x s']| |] eqn:Hm; try discriminate.
      injection He as <-. simpl. destruct (Hsafe _ _ _ HI Hm) as [HI' Hk].
      split; [exact HI'|]. apply Forall_insert; assumption.
    + destruct (locked c); [discriminate|]. injection He as <-. simpl.
      split; [exact HI|]. apply Forall_insert; assumption.
    + injection He as <-. simpl.
      split; [exact HI|]. apply Forall_insert; assumption.
  - injection He as <-. simpl. split; [exact HI|].
    apply Forall_app. split; [exact Hts|]. apply Forall_singleton.
    apply sat_thread. apply safe_DoJob.
  - injection He as <-. simpl. split; [exact HI|].
    apply Forall_app. split; [exact Hts|]. apply Forall_singleton.
    apply sat_thread. apply safe_Close.
  - destruct (finishJob a (world c)) as [s'|] eqn:Hf; [|discriminate].
    injection He as <-. simpl. split; [|exact Hts].
    eapply finishJob_Inv; eauto.
  - destruct (heap (rt (world c)) !! a) as [w|]; [|discriminate].
    destruct (kind w =? TEMPORARY); [|discriminate].
    injection He as <-. simpl. split; [exact HI|].
    apply Forall_app. split; [exact Hts|]. apply Forall_singleton.
    apply safe_removeFromParent.
Qed.
End Invariant.

(** ** Every state of a pool in use *)

Lemma built_eternal_ok cf r : eternal_ok cf (length (heap r)) (built cf r).
Proof.
  split; [reflexivity|]. split; [reflexivity|].
  intros k Hk. unfold built, started. simpl.
  rewrite lookup_app_r by lia.
  replace (length (heap r) + k - length (heap r))%nat with k by lia.
  rewrite eternals_lookup by exact Hk. eexists. split; [reflexivity|].
  simpl. auto.
Qed.

Lemma built_Inv cf r : Inv cf (length (heap r)) (built cf r).
Proof.
  split; [apply built_eternal_ok|]. intros H0 a w Hge Hw.
  unfold built, started in Hw. simpl in Hw.
  rewrite lookup_app_r in Hw by exact Hge.
  pose proof (lookup_lt_Some _ _ _ Hw) as Hlt. rewrite length_eternals in Hlt.
  rewrite eternals_lookup in Hw by exact Hlt. injection Hw as <-.
  unfold bounded. simpl. lia.
Qed.

Lemma running_Inv d c r cfg :
  running d c r cfg ->
  Inv (built_conf d c) (length (heap r)) (world cfg) /\
  Forall (fun p => sat (Inv (built_conf d c) (length (heap r))) p (fun _ => True))
         (threads cfg).
Proof.
  induction 1 as [s H|cfg cfg' _ [HI Hts] [e He]].
  - apply NewPool_Ret in H as [_ ->]. split; [apply built_Inv|].
    apply Forall_nil_2.
  - eapply occur_Inv; eauto.
Qed.

Lemma reachable_Inv d c r s :
  reachable d c r s -> Inv (built_conf d c) (length (heap r)) s.
Proof. intros (cfg & Hr & <-). apply (running_Inv d c r cfg Hr). Qed.

Lemma played_after es c : played es c = true -> rtc step c (after es c).
Proof.
  unfold played, after. intros H. apply (play_steps es).
  destruct (play es c); [reflexivity|discriminate].
Qed.

Lemma reachable_after d c r s es :
  NewPool d c r = Ret s -> played es (fresh s) = true ->
  reachable d c r (world (after es (fresh s))).
Proof.
  intros Hn Hp. exists (after es (fresh s)). split; [|reflexivity].
  eapply running_steps; [apply run_new; exact Hn|].
  apply played_after. exact Hp.
Qed.

Lemma reachable_pool22 : reachable conf22 None runtime0 pool22.
Proof. exists (fresh pool22). split; [apply run_new|]; reflexivity. Defined.

Lemma one_job_busy22 : world (after one_job (fresh pool22)) = busy22.
Proof. vm_compute. reflexivity. Qed.

Lemma reachable_busy22 : reachable conf22 None runtime0 busy22.
Proof.
  rewrite <- one_job_busy22. apply reachable_after; [reflexivity|].
  vm_compute. reflexivity.
Defined.

(** X12.  In every state of a pool built by [NewPool], however the
    calls on it overlap, the eternal registry is the one built at
    startup: the configuration is the one given, and the [k]-th entry
    is the live worker of kind [ETERNAL] with identity [k + 1] and the
    configured capacity.  No action of [DoJob], [Close] or
    [removeFromParent], and no completion of a job, changes its
    membership. *)
Theorem eternal_registry_fixed d c r s :
  reachable d c r s ->
  eternal_ok (built_conf d c) (length (heap r)) s.
Proof. intros H. apply reachable_Inv in H. apply H. Qed.

Lemma eternal_registry_fixed_witness :
  eternal_ok (built_conf conf22 None) (length (heap runtime0)) busy22.
Proof. exact (eternal_registry_fixed conf22 None runtime0 busy22 reachable_busy22). Defined.

(** ** C8: the load and the capacity *)






(** ** C6: closing *)

Lemma step_spawn_Close s lk ts :
  step (mkConfig s lk ts) (mkConfig s lk (ts ++ [thread Fine.Close])).
Proof. exists CallClose. reflexivity. Qed.

(** The call at position [j] behind [ts] performs its action. *)
Lemma step_Act {X} ts us j s lk (m : M X) k x s' :
  us !! j = Some (Act m k) -> m s = Ret (x, s') ->
  step (mkConfig s lk (ts ++ us)) (mkConfig s' lk (ts ++ <[j := k x]> us)).
Proof.
  intros Hj Hm. exists (Fire (length ts + j)). unfold occur, fire. simpl.
  rewrite lookup_app_r by lia.
  replace (length ts + j - length ts)%nat with j by lia.
  rewrite Hj, Hm. rewrite insert_app_r. reflexivity.
Qed.

(** C6: what [Close] does when two calls overlap.  From every
    configuration of an open pool there is a run of two [Close] calls
    in which the pool is closed at one point ([isClosed] is true) and
    is not at a later one: both calls found the pool open, the first
    lowered [isClose] from 2 to 1, the second from 1 to 0.  The
    context is cancelled, and [isClosed] is false. *)
Theorem Close_overlap_reopens c :
  isClose (pool (world c)) = 2 ->
  exists c1 c2,
    rtc step c c1 /\
    isClosed (world c1) = Ret (true, world c1) /\
    rtc step c1 c2 /\
    isClosed (world c2) = Ret (false, world c2) /\
    isClose (pool (world c2)) = 0 /\
    cancelled (pool (world c2)) = true.
Proof.
  destruct c as [s lk ts]. simpl. intros Hopen.
  assert (isClosed s = Ret (false, s)) as Hload
    by (rewrite isClosed_Ret, Hopen; reflexivity).
  eexists. eexists. split.
  { eapply rtc_l; [apply step_spawn_Close|].
    eapply rtc_l; [apply step_spawn_Close|]. rewrite <- app_assoc.
    eapply rtc_l; [eapply (step_Act ts _ 0%nat); [reflexivity|exact Hload]|].
    eapply rtc_l; [eapply (step_Act ts _ 1%nat); [reflexivity|exact Hload]|].
    eapply rtc_l; [eapply (step_Act ts _ 0%nat); reflexivity|].
    apply rtc_refl. }
  split.
  { rewrite isClosed_Ret. simpl. rewrite Hopen. reflexivity. }
  split.
  { eapply rtc_l; [eapply (step_Act ts _ 1%nat); reflexivity|].
    eapply rtc_l; [eapply (step_Act ts _ 0%nat); reflexivity|].
    apply rtc_refl. }
  rewrite isClosed_Ret. simpl. rewrite Hopen. auto.
Qed.

Lemma Close_overlap_reopens_witness :
  exists c1 c2,
    rtc step (fresh pool22) c1 /\
    isClosed (world c1) = Ret (true, world c1) /\
    rtc step c1 c2 /\
    isClosed (world c2) = Ret (false, world c2) /\
    isClose (pool (world c2)) = 0 /\
    cancelled (pool (world c2)) = true.
Proof.
  apply (Close_overlap_reopens (fresh pool22)); reflexivity.
Defined.

(** After the two overlapping calls of [two_closes] on [pool22] the
    context is cancelled, [isClose] is 0, and a [DoJob] is admitted. *)
Example DoJob_after_two_closes :
  played two_closes (fresh pool22) = true /\
  isClose (pool (world (after two_closes (fresh pool22)))) = 0 /\
  cancelled (pool (world (after two_closes (fresh pool22)))) = true /\
  exists s', DoJob 5 (mkTaskContext 0) (world (after two_closes (fresh pool22)))
             = Ret (true, s').
Proof.
  split; [vm_compute; reflexivity|]. split; [vm_compute; reflexivity|].
  split; [vm_compute; reflexivity|]. eexists. vm_compute. reflexivity.
Qed.

(** ** Calls that do not overlap *)

(** X13.  When no other call interferes: [Close] on an open pool sets
    [isClose] to 1 and cancels the context, and changes nothing else;
    the pool is closed then, a second [Close] returns with the whole
    state unchanged, and so does every [DoJob], with false. *)
Theorem Close_in_sequence s :
  isClose (pool s) = 2 ->
  exists s1,
    Close s = Ret (tt, s1) /\
    s1 = upd_pool (fun p => set_cancelled true (set_isClose 1 p)) s /\
    isClosed s1 = Ret (true, s1) /\
    Close s1 = Ret (tt, s1) /\
    forall fuel job, DoJob fuel job s1 = Ret (false, s1).
Proof.
  intros Hopen.
  exists (upd_pool (fun p => set_cancelled true (set_isClose 1 p)) s).
  split.
  { rewrite Close_Ret, Hopen. simpl. unfold upd_pool. rewrite Hopen.
    reflexivity. }
  split; [reflexivity|].
  split; [rewrite isClosed_Ret; reflexivity|].
  split; [rewrite Close_Ret; reflexivity|].
  intros fuel job. apply DoJob_closed. reflexivity.
Qed.

Lemma Close_in_sequence_witness :
  exists s1,
    Close pool22 = Ret (tt, s1) /\
    s1 = upd_pool (fun p => set_cancelled true (set_isClose 1 p)) pool22 /\
    isClosed s1 = Ret (true, s1) /\
    Close s1 = Ret (tt, s1) /\
    forall fuel job, DoJob fuel job s1 = Ret (false, s1).
Proof. apply (Close_in_sequence pool22). reflexivity. Defined.

(** ** A worker that leaves while a caller is about to lock *)

(** X17.  [DoJob] can panic.  In the run [exit_before_lock] of a pool
    built by [NewPool], a [DoJob] has found one temporary worker
    registered and goes on to take the lock; the worker unregisters
    itself before the lock is taken; under the lock the registry has
    length 0, which is not 1, so that [getTwoWorker] is called for a
    registry of size 0, and [Intn] panics. *)
Theorem DoJob_panics_after_exit :
  reachable conf20 None runtime0 (world (after exit_before_lock (fresh pool20))) /\
  temporaryWorker (pool (world (after exit_before_lock (fresh pool20)))) = Some [] /\
  fire 1 (after exit_before_lock (fresh pool20))
  = Panic "invalid argument to Intn".
Proof.
  split.
  { apply reachable_after; [reflexivity|]. vm_compute. reflexivity. }
  split; vm_compute; reflexivity.
Qed.

Lemma reachable_NoDup d c r s :
  reachable d c r s -> NoDup (eternalWorker (pool s)).
Proof.
  intros H. apply reachable_Inv in H as [(_ & -> & _) _]. apply NoDup_seq.
Qed.

(** ** Without interruption *)

(** Run without interruption, the sequences of actions are the
    methods as defined first. *)























